(** * The four-way image splitter: cut model, drag controller, slice rasterizer

    A shallow embedding of [ImageEditor.tsx] (with the pieces of [App.tsx],
    [ImageUploader.tsx], [ResultGallery.tsx] and [types.ts] it talks to) and
    the proofs of the properties stated about it.

    Numbers.  A JavaScript [number] is modelled by [JS.number]: the
    rational a finite double denotes (kept in lowest terms, so that equal
    numbers are equal terms) or one of the three non-finite values
    [Infinity], [-Infinity], [NaN].  The sign of zero is not modelled.

    Arithmetic.  [B64] is the arithmetic of the code: IEEE 754 binary64,
    every operation on finite numbers being the exact operation followed by
    a rounding to the nearest double, ties to even.  The drag path (the
    pointer fraction, the two limits, the clamp, the store) is modelled in
    it, because there the rounding decides what is true.  [JS] holds the
    same operations without the rounding.  The rasterizer is modelled with
    those: its tiling property is stated in exact arithmetic, and its other
    properties depend on signs and on the order of numbers only, which
    rounding to nearest keeps. *)

From Stdlib Require Import String QArith Qcanon Qround Qpower List Bool Arith NArith ZArith Lia Lqa.
From Stdlib Require Import Permutation.
From Stdlib Require DecimalString DecimalNat.
Import ListNotations.

(* ================================================================== *)
(** ** JavaScript numbers *)
(* ================================================================== *)

Module JS.

Local Open Scope Qc_scope.

Inductive number : Type :=
| Fin (q : Qc)
| PosInf
| NegInf
| NaN.

Definition of_Q (q : Q) : number := Fin (Q2Qc q).
Definition of_Z (z : Z) : number := of_Q (inject_Z z).
Definition of_N (n : N) : number := of_Z (Z.of_N n).

(** [finite x] is the guarded view of a number: the rational it denotes,
    or [None] for [Infinity], [-Infinity] and [NaN]. *)
Definition finite (x : number) : option Qc :=
  match x with Fin q => Some q | _ => None end.

Definition neg (x : number) : number :=
  match x with
  | Fin q => Fin (- q)
  | PosInf => NegInf
  | NegInf => PosInf
  | NaN => NaN
  end.

(** [x + y] *)
Definition add (x y : number) : number :=
  match x, y with
  | NaN, _ | _, NaN => NaN
  | Fin a, Fin b => Fin (a + b)
  | PosInf, NegInf | NegInf, PosInf => NaN
  | PosInf, _ | _, PosInf => PosInf
  | NegInf, _ | _, NegInf => NegInf
  end.

(** [x - y] *)
Definition sub (x y : number) : number := add x (neg y).

(** The infinity of the sign of [s * q], [NaN] when [q] is zero. *)
Definition signed_inf (positive : bool) (q : Qc) : number :=
  match q ?= 0 with
  | Eq => NaN
  | Gt => if positive then PosInf else NegInf
  | Lt => if positive then NegInf else PosInf
  end.

(** [x * y] *)
Definition mul (x y : number) : number :=
  match x, y with
  | NaN, _ | _, NaN => NaN
  | Fin a, Fin b => Fin (a * b)
  | Fin a, PosInf | PosInf, Fin a => signed_inf true a
  | Fin a, NegInf | NegInf, Fin a => signed_inf false a
  | PosInf, PosInf | NegInf, NegInf => PosInf
  | PosInf, NegInf | NegInf, PosInf => NegInf
  end.

(** [x / y].  Division never throws in JavaScript: a finite non-zero
    numerator over zero is an infinity, and [0 / 0] is [NaN].  (Zero is
    the positive zero: the only divisors of the component are the width and
    height of a bounding rectangle.) *)
Definition div (x y : number) : number :=
  match x, y with
  | NaN, _ | _, NaN => NaN
  | Fin a, Fin b =>
      match b ?= 0 with
      | Eq => match a ?= 0 with Eq => NaN | Gt => PosInf | Lt => NegInf end
      | _ => Fin (a / b)
      end
  | Fin _, _ => Fin 0
  | PosInf, Fin b => match b ?= 0 with Lt => NegInf | _ => PosInf end
  | NegInf, Fin b => match b ?= 0 with Lt => PosInf | _ => NegInf end
  | _, _ => NaN
  end.

(** [x <= y]: false as soon as one side is [NaN]. *)
Definition le (x y : number) : bool :=
  match x, y with
  | NaN, _ | _, NaN => false
  | NegInf, _ | _, PosInf => true
  | Fin a, Fin b => match a ?= b with Gt => false | _ => true end
  | _, _ => false
  end.

(** [x < y] *)
Definition lt (x y : number) : bool :=
  match x, y with
  | NaN, _ | _, NaN => false
  | PosInf, _ | _, NegInf => false
  | Fin a, Fin b => match a ?= b with Lt => true | _ => false end
  | _, _ => true
  end.

(** [Math.min(x, y)] and [Math.max(x, y)]: [NaN] if either argument is. *)
Definition min (x y : number) : number :=
  match x, y with
  | NaN, _ | _, NaN => NaN
  | _, _ => if le x y then x else y
  end.

Definition max (x y : number) : number :=
  match x, y with
  | NaN, _ | _, NaN => NaN
  | _, _ => if le x y then y else x
  end.

(** Reading [a[i]].  An index past the end (or a hole) reads [undefined],
    and every use the component makes of such a read is arithmetic, where
    [undefined] is coerced to [NaN]. *)
Definition get (a : list number) (i : nat) : number := nth i a NaN.

(** [a[i] = v] on a copy of [a].  Inside the array the element is
    replaced.  Past the end JavaScript extends the array and leaves
    holes between the old end and [i]; a hole is written here as the
    [NaN] it reads back as in arithmetic, which is not what [map] and
    [sort] do with a hole.  No statement below stores past the end. *)
Fixpoint set (a : list number) (i : nat) (v : number) : list number :=
  match a, i with
  | [], O => [v]
  | [], S i' => NaN :: set [] i' v
  | _ :: a', O => v :: a'
  | x :: a', S i' => x :: set a' i' v
  end.

(** [a.sort(cmp)], as a stable insertion sort: [x] moves behind [y] only
    when [cmp(x, y) > 0].  For a comparator that is a consistent total
    order (here: on arrays of finite numbers) every conforming sort returns
    the same array. *)
Fixpoint insert (cmp : number -> number -> number) (x : number)
                (l : list number) : list number :=
  match l with
  | [] => [x]
  | y :: l' => if lt (Fin 0) (cmp x y) then y :: insert cmp x l'
               else x :: l
  end.

Fixpoint sort (cmp : number -> number -> number) (l : list number)
  : list number :=
  match l with
  | [] => []
  | x :: l' => insert cmp x (sort cmp l')
  end.

End JS.

(* ================================================================== *)
(** ** Binary64 arithmetic *)
(* ================================================================== *)

Module B64.

Import JS.

(** [2^z] as a rational, for any integer [z]. *)
Definition pow2 (z : Z) : Q := (2 ^ z)%Q.

(** The integer part of the base 2 logarithm of a positive rational:
    [2^(ilog2 a) <= a < 2^(ilog2 a + 1)]. *)
Definition ilog2 (a : Q) : Z :=
  let k := (Z.log2 (Qnum a) - Z.log2 (Zpos (Qden a)))%Z in
  if Qle_bool (pow2 k) a then k else (k - 1)%Z.

(** The nearest integer, ties to the even one. *)
Definition rne (x : Q) : Z :=
  let f := Qfloor x in
  match (x - inject_Z f ?= 1 # 2)%Q with
  | Lt => f
  | Gt => (f + 1)%Z
  | Eq => if Z.even f then f else (f + 1)%Z
  end.

(** The exponent of the last bit of the 53-bit significand of the double
    nearest to a positive [a]; -1074 is the exponent of the subnormals. *)
Definition exponent (a : Q) : Z := Z.max (-1074) (ilog2 a - 52).

(** The nearest multiple of [2^e]. *)
Definition grid (e : Z) (a : Q) : Q :=
  (inject_Z (rne (a / pow2 e)) * pow2 e)%Q.

(** The nearest double to a positive rational, were the exponent range
    unbounded above. *)
Definition nearest (a : Q) : Q := grid (exponent a) a.

(** Rounding of a positive rational: what reaches [2^1024] overflows. *)
Definition round_pos (a : Q) : number :=
  if Qle_bool (pow2 1024) (nearest a) then PosInf
  else Fin (Q2Qc (nearest a)).

(** Rounding to binary64. *)
Definition round64 (q : Qc) : number :=
  match (q ?= 0)%Qc with
  | Eq => Fin (Q2Qc 0)
  | Gt => round_pos q
  | Lt => neg (round_pos (- q)%Qc)
  end.

(** A decimal literal of the source: the double nearest to it. *)
Definition of_Q (q : Q) : number := round64 (Q2Qc q).

(** [x + y], [x - y] and [x / y] of the code.  Only the finite case
    rounds; the rest is as in [JS]. *)
Definition add (x y : number) : number :=
  match x, y with
  | Fin a, Fin b => round64 (a + b)%Qc
  | _, _ => JS.add x y
  end.

Definition sub (x y : number) : number :=
  match x, y with
  | Fin a, Fin b => round64 (a - b)%Qc
  | _, _ => JS.sub x y
  end.

Definition div (x y : number) : number :=
  match x, y with
  | Fin a, Fin b =>
      match (b ?= 0)%Qc with
      | Eq => JS.div x y
      | _ => round64 (a / b)%Qc
      end
  | _, _ => JS.div x y
  end.

End B64.

(* ================================================================== *)
(** ** The component: data *)
(* ================================================================== *)

Import JS.

(** [types.ts] *)
Inductive SplitDirection : Type :=
| HORIZONTAL   (* cut horizontally: rows *)
| VERTICAL.    (* cut vertically: columns *)

(** The source rectangle handed to [ctx.drawImage(img, sx, sy, sw, sh,
    0, 0, sw, sh)]. *)
Record Rect : Type := mkRect { sx : number; sy : number; sw : number; sh : number }.

(** [canvas.toDataURL('image/png')] after the draw: the PNG of the source
    rectangle.  The encoding is opaque to the component; the model keeps
    the rectangle that was encoded. *)
Inductive DataUrl : Type := Png (source : Rect).

Record SplitResult : Type := mkSplitResult {
  id : nat;
  dataUrl : DataUrl;
  width : number;
  height : number
}.

Definition drawn (r : SplitResult) : Rect :=
  match dataUrl r with Png src => src end.

(** What the component reads of the [<img>] element. *)
Record HTMLImageElement : Type := mkImage {
  naturalWidth : N;
  naturalHeight : N;
  complete : bool
}.

(** [containerRef.current.getBoundingClientRect()] *)
Module DOMRect.
Record t : Type := make { left : number; top : number; width : number; height : number }.
End DOMRect.

(** What a handler finds around it when it runs. *)
Record Env : Type := mkEnv {
  imageRef : option HTMLImageElement;   (* imageRef.current *)
  context2d : bool;                     (* canvas.getContext('2d') is not null *)
  containerRef : option DOMRect.t       (* containerRef.current, measured live *)
}.

(** The state of the editing session: the three [useState] cells of
    [ImageEditor], the two cells of [App] that the editor writes through
    [onResultsGenerated] and [setIsProcessing], and the messages shown to
    the user with [alert]. *)
Record State : Type := mkState {
  cuts : list number;
  direction : SplitDirection;
  activeDragIndex : option nat;
  results : list SplitResult;
  isProcessing : bool;
  alerts : list string
}.

Definition setCuts (cs : list number) (st : State) : State :=
  mkState cs (direction st) (activeDragIndex st) (results st)
          (isProcessing st) (alerts st).
Definition setDirection (d : SplitDirection) (st : State) : State :=
  mkState (cuts st) d (activeDragIndex st) (results st)
          (isProcessing st) (alerts st).
Definition setActiveDragIndex (i : option nat) (st : State) : State :=
  mkState (cuts st) (direction st) i (results st)
          (isProcessing st) (alerts st).
(** [onResultsGenerated={setResults}] in [App]. *)
Definition onResultsGenerated (rs : list SplitResult) (st : State) : State :=
  mkState (cuts st) (direction st) (activeDragIndex st) rs
          (isProcessing st) (alerts st).
Definition setIsProcessing (b : bool) (st : State) : State :=
  mkState (cuts st) (direction st) (activeDragIndex st) (results st)
          b (alerts st).
Definition alert (msg : string) (st : State) : State :=
  mkState (cuts st) (direction st) (activeDragIndex st) (results st)
          (isProcessing st) (alerts st ++ [msg]).

Definition quarter : number := of_Q 0.25.
Definition half : number := of_Q 0.50.
Definition threeQuarters : number := of_Q 0.75.

(** [useState<number[]>([0.25, 0.50, 0.75])] and the other initial values. *)
Definition initialCuts : list number := [quarter; half; threeQuarters].

Definition initialState : State :=
  mkState initialCuts VERTICAL None [] false [].

(* ================================================================== *)
(** ** The component: operations *)
(* ================================================================== *)

(** [handleDirectionChange] *)
Definition handleDirectionChange (newDirection : SplitDirection) (st : State)
  : State :=
  onResultsGenerated [] (setCuts initialCuts (setDirection newDirection st)).

(** *** [generateSlices] *)

(** [[0, ...cuts, 1].sort((a, b) => a - b)] *)
Definition sortedCuts (cs : list number) : list number :=
  JS.sort JS.sub (Fin 0 :: cs ++ [Fin 1]).

(** The four assignments to [sx, sy, sw, sh] in the loop body. *)
Definition sliceRect (d : SplitDirection) (img : HTMLImageElement)
                     (startPct sizePct : number) : Rect :=
  match d with
  | VERTICAL =>
      mkRect (mul (of_N (naturalWidth img)) startPct)
             (Fin 0)
             (mul (of_N (naturalWidth img)) sizePct)
             (of_N (naturalHeight img))
  | HORIZONTAL =>
      mkRect (Fin 0)
             (mul (of_N (naturalHeight img)) startPct)
             (of_N (naturalWidth img))
             (mul (of_N (naturalHeight img)) sizePct)
  end.

(** One iteration of the loop at index [i]: [None] is the [continue]. *)
Definition sliceAt (d : SplitDirection) (img : HTMLImageElement)
                   (sorted : list number) (i : nat) : option SplitResult :=
  let startPct := get sorted i in
  let endPct := get sorted (i + 1) in
  let sizePct := sub endPct startPct in
  let r := sliceRect d img startPct sizePct in
  if le (sw r) (Fin 0) || le (sh r) (Fin 0) then None
  else Some (mkSplitResult i (Png r) (sw r) (sh r)).

(** [for (let i = 0; i < sortedCuts.length - 1; i++)], pushing onto
    [newResults]. *)
Fixpoint sliceLoop (d : SplitDirection) (img : HTMLImageElement)
                   (sorted : list number) (i count : nat) : list SplitResult :=
  match count with
  | O => []
  | S count' =>
      match sliceAt d img sorted i with
      | Some r => r :: sliceLoop d img sorted (S i) count'
      | None => sliceLoop d img sorted (S i) count'
      end
  end.

Definition newResults (d : SplitDirection) (cs : list number)
                      (img : HTMLImageElement) : list SplitResult :=
  let sorted := sortedCuts cs in
  sliceLoop d img sorted 0 (length sorted - 1).

(** The part of the pass behind the [await]: the loop, then
    [onResultsGenerated(newResults); setIsProcessing(false)].  The cuts and
    the direction are the ones the callback closed over. *)
Definition finishSlices (d : SplitDirection) (cs : list number)
                        (img : HTMLImageElement) (st : State) : State :=
  setIsProcessing false (onResultsGenerated (newResults d cs img) st).

(** How a call of [generateSlices] ends. *)
Inductive Pass : Type :=
| Skipped      (* no image element: returns at once *)
| Aborted      (* no 2d context: returns after resetting the flag *)
| Suspended    (* image not complete: waiting for its load event *)
| Completed.   (* results handed to [onResultsGenerated] *)

Definition generateSlices (env : Env) (st : State) : Pass * State :=
  match imageRef env with
  | None => (Skipped, st)
  | Some img =>
      let st1 := setIsProcessing true st in
      if negb (context2d env) then (Aborted, setIsProcessing false st1)
      else if negb (complete img) then (Suspended, st1)
      else (Completed, finishSlices (direction st) (cuts st) img st1)
  end.

(** *** Dragging *)

(** [handleDragStart] and [handleDragEnd] *)
Definition handleDragStart (index : nat) (st : State) : State :=
  setActiveDragIndex (Some index) st.

Definition handleDragEnd (st : State) : State :=
  setActiveDragIndex None st.

(** The pointer's fraction along the active axis: the first half of
    [handleMove]. *)
Definition pointerPct (d : SplitDirection) (rect : DOMRect.t)
                      (clientX clientY : number) : number :=
  match d with
  | VERTICAL =>
      B64.div (B64.sub clientX (DOMRect.left rect)) (DOMRect.width rect)
  | HORIZONTAL =>
      B64.div (B64.sub clientY (DOMRect.top rect)) (DOMRect.height rect)
  end.

(** [const padding = 0.05] *)
Definition padding : number := B64.of_Q 0.05.

Definition prevLimit (cs : list number) (index : nat) : number :=
  if 0 <? index then B64.add (get cs (index - 1)) padding
  else B64.add (Fin 0) padding.

Definition nextLimit (cs : list number) (index : nat) : number :=
  if index <? length cs - 1 then B64.sub (get cs (index + 1)) padding
  else B64.sub (Fin 1) padding.

(** [Math.max(prevLimit, Math.min(newPct, nextLimit))] *)
Definition clampPct (cs : list number) (index : nat) (newPct : number)
  : number :=
  JS.max (prevLimit cs index) (JS.min newPct (nextLimit cs index)).

(** The second half of [handleMove]: clamp, then
    [setCuts(prev => { next = [...prev]; next[index] = newPct; ... })].
    Between two renders only [cuts[index]] can have changed, and the limits
    read its neighbours, so [prev] and the closed-over [cuts] agree where it
    matters; the model uses one array for both. *)
Definition setCut (index : nat) (newPct : number) (cs : list number)
  : list number :=
  JS.set cs index (clampPct cs index newPct).

Definition handleMove (env : Env) (clientX clientY : number) (st : State)
  : State :=
  match activeDragIndex st, containerRef env with
  | Some index, Some rect =>
      let newPct := pointerPct (direction st) rect clientX clientY in
      setCuts (setCut index newPct (cuts st)) st
  | _, _ => st
  end.


(** *** [ImageUploader.processFile] *)

(** The one place of the application that tells the user something went
    wrong: a dropped file whose MIME type does not start with [image/]. *)
Definition processFile (fileType : string) (onImageSelect : State -> State)
                       (st : State) : State :=
  if String.prefix "image/" fileType then onImageSelect st
  else alert "画像ファイルを選択してください" st.

(* ================================================================== *)
(** ** The properties, as predicates *)
(* ================================================================== *)

Local Open Scope Qc_scope.

Definition minGap : Qc := Q2Qc 0.05.

(** The gap invariant of a CutSet: exactly three reals with
    [minGap <= cut[0]], [cut[i] + minGap <= cut[i+1]] and
    [cut[2] <= 1 - minGap]. *)
Definition gapInvariant (cs : list number) : bool :=
  match cs with
  | [Fin c0; Fin c1; Fin c2] =>
      le (Fin minGap) (Fin c0)
      && le (Fin (c0 + minGap)) (Fin c1)
      && le (Fin (c1 + minGap)) (Fin c2)
      && le (Fin c2) (Fin (1 - minGap))
  | _ => false
  end.


(** A rectangle along the split axis: where it starts, how far it
    extends, where it stops. *)
Definition start (d : SplitDirection) (r : Rect) : number :=
  match d with VERTICAL => sx r | HORIZONTAL => sy r end.
Definition extent (d : SplitDirection) (r : Rect) : number :=
  match d with VERTICAL => sw r | HORIZONTAL => sh r end.
Definition stop (d : SplitDirection) (r : Rect) : number :=
  add (start d r) (extent d r).

(** The length of the image along the split axis: [W] for columns, [H]
    for rows. *)
Definition axisLength (d : SplitDirection) (img : HTMLImageElement) : number :=
  match d with
  | VERTICAL => of_N (naturalWidth img)
  | HORIZONTAL => of_N (naturalHeight img)
  end.

Definition total (d : SplitDirection) (rs : list SplitResult) : number :=
  fold_right (fun r acc => add (extent d (drawn r)) acc) (Fin 0) rs.

(** [Tiles d lo hi rs]: the rectangles of [rs], in order, pave the pixels
    from [lo] to [hi] along the axis [d]: each has a positive extent and
    starts where the one before it stopped. *)
Inductive Tiles (d : SplitDirection) : Qc -> Qc -> list SplitResult -> Prop :=
| Tiles_nil lo : Tiles d lo lo []
| Tiles_cons lo mid hi r rs :
    start d (drawn r) = Fin lo ->
    extent d (drawn r) = Fin (mid - lo) ->
    lo < mid ->
    Tiles d mid hi rs ->
    Tiles d lo hi (r :: rs).

(** Equality tests that compute: two finite numbers are the same number
    when their fractions are equal. *)
Definition number_eqb (x y : number) : bool :=
  match x, y with
  | Fin a, Fin b => Qeq_bool a b
  | PosInf, PosInf | NegInf, NegInf | NaN, NaN => true
  | _, _ => false
  end.

Fixpoint all2 {A : Type} (eqb : A -> A -> bool) (l l' : list A) : bool :=
  match l, l' with
  | [], [] => true
  | x :: t, y :: t' => eqb x y && all2 eqb t t'
  | _, _ => false
  end.

Definition rect_eqb (r r' : Rect) : bool :=
  number_eqb (sx r) (sx r') && number_eqb (sy r) (sy r')
  && number_eqb (sw r) (sw r') && number_eqb (sh r) (sh r').

Definition result_eqb (r r' : SplitResult) : bool :=
  Nat.eqb (id r) (id r') && rect_eqb (drawn r) (drawn r')
  && number_eqb (width r) (width r') && number_eqb (height r) (height r').

Definition isFinite (x : number) : bool :=
  match x with Fin _ => true | _ => false end.

(** An array of reals: no [NaN], no infinity. *)
Definition allFinite (l : list number) : bool := forallb isFinite l.

(** The number of pixels [n] as a rational, the length of the image along
    the split axis as a rational, and the real at index [i] of an array of
    reals. *)
Definition N2Qc (n : N) : Qc := Q2Qc (inject_Z (Z.of_N n)).

Definition axisLengthQ (d : SplitDirection) (img : HTMLImageElement) : Qc :=
  match d with
  | VERTICAL => N2Qc (naturalWidth img)
  | HORIZONTAL => N2Qc (naturalHeight img)
  end.

Definition boundary (l : list number) (i : nat) : Qc :=
  match get l i with Fin q => q | _ => 0 end.

(** The side of the container the pointer fraction is divided by, and the
    pointer offset that is divided: width and [clientX - left] for columns,
    height and [clientY - top] for rows. *)
Definition containerSize (d : SplitDirection) (rect : DOMRect.t) : number :=
  match d with
  | VERTICAL => DOMRect.width rect
  | HORIZONTAL => DOMRect.height rect
  end.

Definition pointerOffset (d : SplitDirection) (rect : DOMRect.t)
                         (clientX clientY : number) : number :=
  match d with
  | VERTICAL => B64.sub clientX (DOMRect.left rect)
  | HORIZONTAL => B64.sub clientY (DOMRect.top rect)
  end.

Definition finiteRect (rect : DOMRect.t) : bool :=
  isFinite (DOMRect.left rect) && isFinite (DOMRect.top rect)
  && isFinite (DOMRect.width rect) && isFinite (DOMRect.height rect).

(** The guarded view of a quotient: [None] when it is undefined, which
    in JavaScript is the value [NaN]. *)
Definition isNaN (x : number) : bool :=
  match x with NaN => true | _ => false end.

Definition defined (x : number) : option number :=
  if isNaN x then None else Some x.

(** The numbers the code can hold: a rational is one when rounding leaves
    it as it is. *)
Definition isDouble (x : number) : bool :=
  match x with
  | Fin q => number_eqb (B64.round64 q) x
  | _ => true
  end.

Definition allDoubles (l : list number) : bool := forallb isDouble l.

(** The rational the double 0.05 denotes, 7205759403792794 / 2^57 (a
    little above 1/20), and the most a rounding moves a number below 1,
    2^-54. *)
Definition paddingQ : Qc := Q2Qc (7205759403792794 # 144115188075855872).
Definition halfUlp : Qc := Q2Qc (1 # 18014398509481984).

(** The gap invariant up to one rounding: the two inner gaps may fall
    short of [minGap] by [halfUlp]; the two outer ones hold as they are. *)
Definition nearGapInvariant (cs : list number) : bool :=
  match cs with
  | [Fin c0; Fin c1; Fin c2] =>
      le (Fin minGap) (Fin c0)
      && le (Fin (c0 + minGap)) (Fin (c1 + halfUlp))
      && le (Fin (c1 + minGap)) (Fin (c2 + halfUlp))
      && le (Fin c2) (Fin (1 - minGap))
  | _ => false
  end.

(** [sorted l]: a list of finite numbers in non-decreasing order. *)
Inductive sorted : list number -> Prop :=
| sorted_nil : sorted []
| sorted_one a : sorted [Fin a]
| sorted_cons a b l : a <= b -> sorted (Fin b :: l) -> sorted (Fin a :: Fin b :: l).

(** *** Sample inputs *)

(** A fully loaded 400 x 200 image. *)
Definition image400x200 : HTMLImageElement := mkImage 400 200 true.

(** A page where everything the editor needs is there: the image, a 2d
    context, and a 400 x 200 container at (10, 20). *)
Definition readyEnv : Env :=
  mkEnv (Some image400x200) true
        (Some (DOMRect.make (of_Z 10) (of_Z 20) (of_Z 400) (of_Z 200))).

(** The same page when [getContext('2d')] returns [null]. *)
Definition noContextEnv : Env :=
  mkEnv (Some image400x200) false
        (Some (DOMRect.make (of_Z 10) (of_Z 20) (of_Z 400) (of_Z 200))).

(** The same page with a container that has collapsed to nothing. *)
Definition collapsedEnv : Env :=
  mkEnv (Some image400x200) true
        (Some (DOMRect.make (of_Z 10) (of_Z 20) (of_Z 0) (of_Z 0))).

(** A session whose first two cuts coincide (it violates the gap
    invariant): the boundaries are 0, 0.5, 0.5, 0.75, 1. *)
Definition coincidingState : State :=
  setCuts [half; half; threeQuarters] initialState.

(** A CutSet the session reaches by four drags (see [fourDrags]): its
    cuts pass the comparisons the code makes, and the limits of cut 1 are
    in the wrong order. *)
Definition tightCuts : list number :=
  [B64.of_Q 0.06999999999999999; B64.of_Q 0.12; B64.of_Q 0.16999999999999998].

(** The rectangle [(x, y, w, h)] in whole pixels, and the result with
    index [i] that encodes it. *)
Definition pixels (x y w h : Z) : Rect :=
  mkRect (of_Z x) (of_Z y) (of_Z w) (of_Z h).

Definition slice (i : nat) (x y w h : Z) : SplitResult :=
  mkSplitResult i (Png (pixels x y w h)) (of_Z w) (of_Z h).

(** The session after the first pass on [readyEnv]: the four column
    slices are in the gallery. *)
Definition slicedState : State := snd (generateSlices readyEnv initialState).

(* ================================================================== *)
(** ** The rest of the application *)
(* ================================================================== *)

(** [a.map((x, index) => f(x, index))], counting from [i]. *)
Fixpoint mapi {A B : Type} (f : A -> nat -> B) (i : nat) (l : list A) : list B :=
  match l with
  | [] => []
  | x :: t => f x i :: mapi f (S i) t
  end.

(** *** What the editor renders *)

(** One draggable line per cut: [cuts.map((cut, index) => <div ... />)].
    Its press handler is [handleDragStart(index)], its position along the
    axis is [cut * 100] percent, and it is highlighted when
    [activeDragIndex === index]. *)
Record Line : Type := mkLine {
  lineIndex : nat;
  linePercent : number;
  lineActive : bool
}.

Definition lines (st : State) : list Line :=
  mapi (fun cut index =>
          mkLine index (mul cut (of_Z 100))
                 (match activeDragIndex st with
                  | Some active => active =? index
                  | None => false
                  end)%nat)
       0 (cuts st).

(** The slice numbers: [[0, ...cuts].map((pos, i) => ...)] with
    [nextPos = i < cuts.length ? cuts[i] : 1],
    [center = (pos + nextPos) / 2], shown as [i + 1] at [center * 100]
    percent. *)
Record Label : Type := mkLabel {
  labelText : nat;
  labelCenter : number;
  labelPercent : number
}.

Definition labelAt (cs : list number) (pos : number) (i : nat) : Label :=
  let nextPos := if (i <? List.length cs)%nat then get cs i else Fin 1 in
  let center := div (add pos nextPos) (of_Z 2) in
  mkLabel (i + 1) center (mul center (of_Z 100)).

Definition labels (cs : list number) : list Label :=
  mapi (labelAt cs) 0 (Fin 0 :: cs).

(** *** What the user can do to the editor *)

Inductive Event : Type :=
| ClickDirection (d : SplitDirection)     (* one of the two axis buttons *)
| PressLine (i : nat)                     (* mousedown / touchstart on the i-th line *)
| PointerMove (clientX clientY : number)  (* mousemove / touchmove on the window *)
| PointerUp                               (* mouseup / touchend on the window *)
| ImageLoad.                              (* the load event of the image *)

(** The window listeners are registered only while
    [activeDragIndex !== null]. *)
Definition listening (st : State) : bool :=
  match activeDragIndex st with Some _ => true | None => false end.

(** The handler an event reaches.  A press reaches the handler of the
    line it lands on; there is no line to press past the last one. *)
Definition handle (env : Env) (ev : Event) (st : State) : State :=
  match ev with
  | ClickDirection d => handleDirectionChange d st
  | PressLine i =>
      match nth_error (lines st) i with
      | Some line => handleDragStart (lineIndex line) st
      | None => st
      end
  | PointerMove clientX clientY =>
      if listening st then handleMove env clientX clientY st else st
  | PointerUp => if listening st then handleDragEnd st else st
  | ImageLoad => st
  end.

(** Whether the handler called [setCuts] or [setDirection], which is what
    makes [useEffect(..., [cuts, direction, imageSrc])] run
    [generateSlices] again ([setCuts] always installs a fresh array). *)
Definition slicesStale (env : Env) (ev : Event) (st : State) : bool :=
  match ev with
  | ClickDirection _ => true
  | PointerMove _ _ =>
      match activeDragIndex st, containerRef env with
      | Some _, Some _ => true
      | _, _ => false
      end
  | ImageLoad => true      (* [onLoad={() => generateSlices()}] *)
  | _ => false
  end.

(** One event: the handler, then the pass if it is due.  The state is the
    one at the end of the synchronous part of the pass. *)
Definition dispatch (env : Env) (ev : Event) (st : State) : State :=
  let st' := handle env ev st in
  if slicesStale env ev st then snd (generateSlices env st') else st'.

(** A sequence of events, each with the page as it is when it arrives. *)
Fixpoint run (trace : list (Env * Event)) (st : State) : State :=
  match trace with
  | [] => st
  | (env, ev) :: rest => run rest (dispatch env ev st)
  end.

(** *** [ResultGallery] *)

(** [`${n}`] for a non-negative integer. *)
Definition decimal (n : nat) : string :=
  DecimalString.NilEmpty.string_of_uint (Nat.to_uint n).

(** One card per result: [results.map((result, index) => ...)]. *)
Record Card : Type := mkCard {
  key : nat;            (* key={result.id} *)
  src : DataUrl;        (* <img src={result.dataUrl}> *)
  alt : string;         (* `Split part ${index + 1}` *)
  badge : nat;          (* {index + 1} *)
  href : DataUrl;       (* <a href={result.dataUrl}> *)
  download : string     (* `split_image_${index + 1}.png` *)
}.

Definition card (result : SplitResult) (index : nat) : Card :=
  mkCard (id result) (dataUrl result)
         ("Split part " ++ decimal (index + 1))
         (index + 1)
         (dataUrl result)
         ("split_image_" ++ decimal (index + 1) ++ ".png").

(** [if (results.length === 0) return null;] and the grid otherwise. *)
Definition ResultGallery (rs : list SplitResult) : option (list Card) :=
  if (List.length rs =? 0)%nat then None else Some (mapi card 0 rs).

(** *** More predicates *)

(** [coincidingState] after a pass on [readyEnv]: three slices, with the
    ids 0, 2 and 3. *)
Definition coincidingStateSliced : State :=
  snd (generateSlices readyEnv coincidingState).

(** Events of the pointer on the window: moves and releases. *)
Definition pointerOnly (step : Env * Event) : bool :=
  match snd step with
  | PointerMove _ _ | PointerUp => true
  | _ => false
  end.

(** Four drags on the 400 x 200 page: line 0 far to the left, line 1 to
    48 pixels from the left edge, line 2 far to the left, line 0 far to the
    right. *)
Definition fourDrags : list (Env * Event) :=
  [(readyEnv, PressLine 0); (readyEnv, PointerMove (of_Z (-1000)) (of_Z 50));
   (readyEnv, PointerUp);
   (readyEnv, PressLine 1); (readyEnv, PointerMove (of_Z 58) (of_Z 50));
   (readyEnv, PointerUp);
   (readyEnv, PressLine 2); (readyEnv, PointerMove (of_Z (-1000)) (of_Z 50));
   (readyEnv, PointerUp);
   (readyEnv, PressLine 0); (readyEnv, PointerMove (of_Z 5000) (of_Z 50));
   (readyEnv, PointerUp)].

(** The name under which the card at position [index] is downloaded. *)
Definition downloadName (index : nat) : string :=
  "split_image_" ++ decimal (index + 1) ++ ".png".

Fixpoint increasing (l : list nat) : bool :=
  match l with
  | x :: ((y :: _) as t) => (x <? y)%nat && increasing t
  | _ => true
  end.

(* ================================================================== *)
(** ** Arithmetic on the finite numbers *)
(* ================================================================== *)

(** Goals on canonical rationals are sent to [Q], where [lra] decides
    them. *)
Ltac qc_unfold :=
  unfold minGap in *;
  unfold Qcle, Qclt, Qcminus, Qcplus, Qcopp, Qcmult, Q2Qc in *;
  cbn [this] in *;
  rewrite ?Qred_correct in *.

Ltac qc_lra := intros; try apply Qc_is_canon; qc_unfold; lra.
Ltac qc_nra := intros; try apply Qc_is_canon; qc_unfold; nra.

Lemma Qccompare_cases (a b : Qc) :
  CompareSpec (a = b) (a < b) (b < a) (a ?= b).
Proof.
  destruct (a ?= b) eqn:E; constructor.
  - apply Qceq_alt, E.
  - apply Qclt_alt, E.
  - apply (proj2 (Qcgt_alt a b)), E.
Qed.

Lemma le_Fin (a b : Qc) : le (Fin a) (Fin b) = true <-> a <= b.
Proof.
  unfold le. destruct (Qccompare_cases a b) as [H | H | H];
    (split; [intros E | intros L]); try reflexivity; try discriminate.
  - subst. apply Qcle_refl.
  - apply Qclt_le_weak, H.
  - exfalso. revert H L. qc_lra.
Qed.

Lemma le_Fin_false (a b : Qc) : le (Fin a) (Fin b) = false <-> b < a.
Proof.
  unfold le. destruct (Qccompare_cases a b) as [H | H | H];
    (split; [intros E | intros L]); try reflexivity; try discriminate; auto.
  - subst. exfalso. revert L. qc_lra.
  - exfalso. revert H L. qc_lra.
Qed.

Lemma lt_Fin (a b : Qc) : lt (Fin a) (Fin b) = true <-> a < b.
Proof.
  unfold lt. destruct (Qccompare_cases a b) as [H | H | H];
    (split; [intros E | intros L]); try reflexivity; try discriminate; auto.
  - subst. exfalso. revert L. qc_lra.
  - exfalso. revert H L. qc_lra.
Qed.

Lemma lt_Fin_false (a b : Qc) : lt (Fin a) (Fin b) = false <-> b <= a.
Proof.
  unfold lt. destruct (Qccompare_cases a b) as [H | H | H];
    (split; [intros E | intros L]); try reflexivity; try discriminate.
  - subst. apply Qcle_refl.
  - exfalso. revert H L. qc_lra.
  - apply Qclt_le_weak, H.
Qed.

Lemma number_eqb_eq (x y : number) : number_eqb x y = true -> x = y.
Proof.
  destruct x, y; simpl; try discriminate; try reflexivity.
  intros E. f_equal. apply Qc_is_canon, Qeq_bool_eq, E.
Qed.

Lemma all2_eq {A : Type} (eqb : A -> A -> bool) :
  (forall x y, eqb x y = true -> x = y) ->
  forall l l', all2 eqb l l' = true -> l = l'.
Proof.
  intros Heq. induction l as [| x l IH]; destruct l' as [| y l'];
    simpl; try discriminate; auto.
  rewrite andb_true_iff. intros [E1 E2]. f_equal; auto.
Qed.

Lemma rect_eqb_eq (r r' : Rect) : rect_eqb r r' = true -> r = r'.
Proof.
  destruct r, r'. unfold rect_eqb. cbn [sx sy sw sh].
  rewrite !andb_true_iff. intros [[[E1 E2] E3] E4].
  f_equal; apply number_eqb_eq; assumption.
Qed.

Lemma result_eqb_eq (r r' : SplitResult) : result_eqb r r' = true -> r = r'.
Proof.
  destruct r as [i [u] w h], r' as [i' [u'] w' h']. unfold result_eqb, drawn.
  cbn [id dataUrl width height].
  rewrite !andb_true_iff. intros [[[E1 E2] E3] E4].
  apply Nat.eqb_eq in E1. apply rect_eqb_eq in E2.
  apply number_eqb_eq in E3, E4. congruence.
Qed.

Lemma max_Fin (a b : Qc) :
  JS.max (Fin a) (Fin b) = Fin (if le (Fin a) (Fin b) then b else a).
Proof. unfold JS.max. destruct (le (Fin a) (Fin b)); reflexivity. Qed.

Lemma min_Fin (a b : Qc) :
  JS.min (Fin a) (Fin b) = Fin (if le (Fin a) (Fin b) then a else b).
Proof. unfold JS.min. destruct (le (Fin a) (Fin b)); reflexivity. Qed.

(** Clamping a finite number between finite limits [lo <= hi] lands in
    [[lo, hi]]. *)
Lemma clamp_Fin (lo hi x : Qc) :
  lo <= hi ->
  exists v, JS.max (Fin lo) (JS.min (Fin x) (Fin hi)) = Fin v
            /\ lo <= v /\ v <= hi.
Proof.
  intros Hlh. rewrite min_Fin, max_Fin.
  destruct (le (Fin x) (Fin hi)) eqn:E1.
  - apply le_Fin in E1.
    destruct (le (Fin lo) (Fin x)) eqn:E2.
    + apply le_Fin in E2. exists x. auto.
    + apply le_Fin_false in E2. exists lo. repeat split; auto.
      apply Qcle_refl.
  - apply le_Fin_false in E1.
    rewrite (proj2 (le_Fin lo hi) Hlh).
    exists hi. repeat split; auto. apply Qcle_refl.
Qed.

(* ================================================================== *)
(** ** Rounding to binary64 *)
(* ================================================================== *)

Section Rounding.

Local Open Scope Q_scope.

Lemma pow2_pos (z : Z) : 0 < B64.pow2 z.
Proof. apply Qpower_0_lt. reflexivity. Qed.

Lemma pow2_add (a b : Z) : B64.pow2 (a + b) == B64.pow2 a * B64.pow2 b.
Proof. apply Qpower_plus. discriminate. Qed.

Lemma pow2_le (a b : Z) : (a <= b)%Z -> B64.pow2 a <= B64.pow2 b.
Proof. intros H. apply Qpower_le_compat_l; [exact H | discriminate]. Qed.

Lemma pow2_lt (a b : Z) : (a < b)%Z -> B64.pow2 a < B64.pow2 b.
Proof. intros H. apply Qpower_lt_compat_l; [exact H | reflexivity]. Qed.

Lemma pow2_Z (z : Z) : (0 <= z)%Z -> B64.pow2 z == inject_Z (2 ^ z).
Proof. intros H. unfold B64.pow2. rewrite Zpower_Qpower by exact H. reflexivity. Qed.

Lemma pow2_succ (z : Z) : B64.pow2 (z + 1) == 2 * B64.pow2 z.
Proof. rewrite pow2_add. change (B64.pow2 1) with 2. ring. Qed.

(** B64.rne *)
Lemma floor_bounds (x : Q) : inject_Z (Qfloor x) <= x /\ x < inject_Z (Qfloor x) + 1.
Proof.
  split; [apply Qfloor_le |].
  pose proof (Qlt_floor x) as H. rewrite inject_Z_plus in H. exact H.
Qed.

Lemma rne_cases (x : Q) :
  let f := Qfloor x in
  (B64.rne x = f /\ x - inject_Z f <= 1 # 2 /\ (x - inject_Z f == 1 # 2 -> Z.even f = true))
  \/ (B64.rne x = (f + 1)%Z /\ 1 # 2 <= x - inject_Z f
      /\ (x - inject_Z f == 1 # 2 -> Z.even f = false)).
Proof.
  intros f. unfold B64.rne. fold f.
  destruct (x - inject_Z f ?= 1 # 2) eqn:E.
  - apply Qeq_alt in E. destruct (Z.even f) eqn:Ev.
    + left. repeat split; auto. rewrite E. apply Qle_refl.
    + right. repeat split; auto. rewrite E. apply Qle_refl.
  - apply Qlt_alt in E. left. repeat split.
    + apply Qlt_le_weak, E.
    + intros H. rewrite H in E. discriminate E.
  - apply Qgt_alt in E. right. repeat split.
    + apply Qlt_le_weak, E.
    + intros H. rewrite H in E. discriminate E.
Qed.

Lemma rne_err (x : Q) :
  x - (1 # 2) <= inject_Z (B64.rne x) /\ inject_Z (B64.rne x) <= x + (1 # 2).
Proof.
  destruct (floor_bounds x) as [H1 H2].
  destruct (rne_cases x) as [(-> & H & _) | (-> & H & _)];
    rewrite ?inject_Z_plus; change (inject_Z 1) with 1; split; lra.
Qed.

Lemma rne_le (x y : Q) : x <= y -> (B64.rne x <= B64.rne y)%Z.
Proof.
  intros Hxy.
  destruct (floor_bounds x) as [X1 X2]. destruct (floor_bounds y) as [Y1 Y2].
  pose proof (Qfloor_resp_le x y Hxy) as Hf.
  destruct (rne_cases x) as [(Ex & Hx & Hx') | (Ex & Hx & Hx')];
  destruct (rne_cases y) as [(Ey & Hy & Hy') | (Ey & Hy & Hy')];
    rewrite Ex, Ey; try lia.
  destruct (Z.eq_dec (Qfloor x) (Qfloor y)) as [E | NE]; [| lia].
  exfalso. rewrite E in *.
  assert (Hx1 : x - inject_Z (Qfloor y) == 1 # 2) by (apply Qle_antisym; lra).
  assert (Hy1 : y - inject_Z (Qfloor y) == 1 # 2) by (apply Qle_antisym; lra).
  rewrite (Hx' Hx1) in Hy'. specialize (Hy' Hy1). discriminate.
Qed.

Lemma rne_Z (k : Z) : B64.rne (inject_Z k) = k.
Proof.
  unfold B64.rne. rewrite Qfloor_Z.
  assert (E : (inject_Z k - inject_Z k ?= 1 # 2) = Lt).
  { apply (proj1 (Qlt_alt _ _)). lra. }
  rewrite E. reflexivity.
Qed.

Lemma rne_comp (x y : Q) : x == y -> B64.rne x = B64.rne y.
Proof.
  intros E. apply Z.le_antisymm; apply rne_le; rewrite E; apply Qle_refl.
Qed.

(** B64.ilog2 *)
Lemma ilog2_spec (a : Q) : 0 < a -> B64.pow2 (B64.ilog2 a) <= a /\ a < B64.pow2 (B64.ilog2 a + 1).
Proof.
  intros Ha. destruct a as [n d]. unfold B64.ilog2. cbn [Qnum Qden].
  assert (Hn : (0 < n)%Z).
  { unfold Qlt in Ha. simpl in Ha. lia. }
  set (ln := Z.log2 n). set (ld := Z.log2 (Z.pos d)).
  destruct (Z.log2_spec n Hn) as [N1 N2]. fold ln in N1, N2.
  destruct (Z.log2_spec (Z.pos d) ltac:(lia)) as [D1 D2]. fold ld in D1, D2.
  assert (Hln : (0 <= ln)%Z) by apply Z.log2_nonneg.
  assert (Hld : (0 <= ld)%Z) by apply Z.log2_nonneg.
  assert (Q1 : B64.pow2 ln <= inject_Z n) by (rewrite pow2_Z by lia; rewrite <- Zle_Qle; lia).
  assert (Q2 : inject_Z n < B64.pow2 (ln + 1))
    by (rewrite pow2_Z by lia; rewrite <- Zlt_Qlt; rewrite Z.add_1_r; lia).
  assert (Q3 : B64.pow2 ld <= inject_Z (Z.pos d)) by (rewrite pow2_Z by lia; rewrite <- Zle_Qle; lia).
  assert (Q4 : inject_Z (Z.pos d) < B64.pow2 (ld + 1))
    by (rewrite pow2_Z by lia; rewrite <- Zlt_Qlt; rewrite Z.add_1_r; lia).
  assert (Ea : n # d == inject_Z n / inject_Z (Z.pos d)) by apply Qmake_Qdiv.
  assert (Hd : 0 < inject_Z (Z.pos d)) by reflexivity.
  set (k := (ln - ld)%Z).
  assert (K1 : B64.pow2 ln == B64.pow2 k * B64.pow2 ld).
  { rewrite <- pow2_add. unfold k. replace (ln - ld + ld)%Z with ln by lia. reflexivity. }
  pose proof (pow2_pos k) as Pk. pose proof (pow2_pos ld) as Pld.
  pose proof (pow2_succ k) as Sk. pose proof (pow2_succ ld) as Sld.
  pose proof (pow2_succ ln) as Sln. pose proof (pow2_succ (k - 1)) as Sk1.
  replace (k - 1 + 1)%Z with k in Sk1 by lia.
  assert (A : (n # d) * inject_Z (Z.pos d) == inject_Z n).
  { rewrite Ea. field. lra. }
  set (a := n # d) in *. set (D := inject_Z (Z.pos d)) in *. set (N := inject_Z n) in *.
  destruct (Qle_bool (B64.pow2 k) a) eqn:E.
  - apply Qle_bool_iff in E. split; [exact E |].
    (* a < 2 * B64.pow2 k : a * D = N < 2 B64.pow2 ln = 2 B64.pow2 k B64.pow2 ld <= 2 B64.pow2 k D *)
    rewrite Sk.
    destruct (Qlt_le_dec a (2 * B64.pow2 k)) as [H | H]; [exact H | exfalso].
    assert (2 * B64.pow2 k * D <= a * D) by (apply Qmult_le_compat_r; lra).
    assert (B64.pow2 k * B64.pow2 ld <= B64.pow2 k * D) by (apply Qmult_le_l; lra).
    lra.
  - assert (E' : a < B64.pow2 k).
    { apply Qnot_le_lt. intros H. apply Qle_bool_iff in H. congruence. }
    replace (k - 1 + 1)%Z with k by lia. split; [| exact E'].
    destruct (Qlt_le_dec a (B64.pow2 (k - 1))) as [H | H]; [exfalso | exact H].
    assert (a * D <= B64.pow2 (k - 1) * D) by (apply Qmult_le_compat_r; lra).
    assert (B64.pow2 (k - 1) * D < B64.pow2 (k - 1) * B64.pow2 (ld + 1)).
    { apply Qmult_lt_l; [apply pow2_pos | exact Q4]. }
    assert (B64.pow2 (k - 1) * B64.pow2 (ld + 1) == B64.pow2 ln).
    { rewrite <- pow2_add. unfold k. replace (ln - ld - 1 + (ld + 1))%Z with ln by lia. reflexivity. }
    lra.
Qed.

Lemma pow2_le_inv (a b : Z) : B64.pow2 a < B64.pow2 (b + 1) -> (a <= b)%Z.
Proof.
  intros H. apply Qpower_lt_compat_l_inv in H; [lia | reflexivity].
Qed.

Lemma ilog2_ge (a : Q) (k : Z) : B64.pow2 k <= a -> (k <= B64.ilog2 a)%Z.
Proof.
  intros H. assert (Ha : 0 < a) by (pose proof (pow2_pos k); lra).
  destruct (ilog2_spec a Ha) as [_ H2]. apply pow2_le_inv. lra.
Qed.

Lemma ilog2_lt (a : Q) (k : Z) : 0 < a -> a < B64.pow2 k -> (B64.ilog2 a < k)%Z.
Proof.
  intros Ha H. destruct (ilog2_spec a Ha) as [H1 _].
  assert (H' : B64.pow2 (B64.ilog2 a) < B64.pow2 (k - 1 + 1)).
  { replace (k - 1 + 1)%Z with k by lia. lra. }
  apply pow2_le_inv in H'. lia.
Qed.

Lemma ilog2_mono (a b : Q) : 0 < a -> a <= b -> (B64.ilog2 a <= B64.ilog2 b)%Z.
Proof.
  intros Ha Hab. apply ilog2_ge. destruct (ilog2_spec a Ha) as [H1 _]. lra.
Qed.

Lemma exponent_mono (a b : Q) : 0 < a -> a <= b -> (B64.exponent a <= B64.exponent b)%Z.
Proof. intros Ha Hab. unfold B64.exponent. pose proof (ilog2_mono a b Ha Hab). lia. Qed.

Lemma exponent_upper (a : Q) : 0 < a -> a < B64.pow2 (B64.exponent a + 53).
Proof.
  intros Ha. destruct (ilog2_spec a Ha) as [_ H2].
  assert (B64.pow2 (B64.ilog2 a + 1) <= B64.pow2 (B64.exponent a + 53)).
  { apply pow2_le. unfold B64.exponent. lia. }
  lra.
Qed.

Lemma exponent_lower (a : Q) :
  0 < a -> (-1074 < B64.exponent a)%Z -> B64.pow2 (B64.exponent a + 52) <= a.
Proof.
  intros Ha He. destruct (ilog2_spec a Ha) as [H1 _].
  replace (B64.exponent a + 52)%Z with (B64.ilog2 a); [exact H1 |].
  unfold B64.exponent in *. lia.
Qed.

Lemma nearest_grid (a : Q) : B64.nearest a = B64.grid (B64.exponent a) a.
Proof. reflexivity. Qed.

Lemma div_pow2_le (e : Z) (a b : Q) : a <= b -> a / B64.pow2 e <= b / B64.pow2 e.
Proof.
  intros H. pose proof (pow2_pos e) as P.
  unfold Qdiv. apply Qmult_le_compat_r; [exact H |].
  apply Qlt_le_weak, Qinv_lt_0_compat, P.
Qed.

Lemma grid_mono (e : Z) (a b : Q) : a <= b -> B64.grid e a <= B64.grid e b.
Proof.
  intros H. unfold B64.grid. pose proof (pow2_pos e) as P.
  apply Qmult_le_compat_r; [| lra].
  rewrite <- Zle_Qle. apply rne_le, div_pow2_le, H.
Qed.

Lemma grid_pow2 (e k : Z) : (0 <= k)%Z -> B64.grid e (B64.pow2 (e + k)) == B64.pow2 (e + k).
Proof.
  intros Hk. unfold B64.grid. pose proof (pow2_pos e) as P.
  assert (E : B64.pow2 (e + k) / B64.pow2 e == inject_Z (2 ^ k)).
  { rewrite pow2_add, <- (pow2_Z k Hk). field. lra. }
  rewrite (rne_comp _ _ E), rne_Z, <- (pow2_Z k Hk), pow2_add. ring.
Qed.

Lemma grid_err (e : Z) (a : Q) :
  a - B64.pow2 (e - 1) <= B64.grid e a /\ B64.grid e a <= a + B64.pow2 (e - 1).
Proof.
  unfold B64.grid. pose proof (pow2_pos e) as P.
  destruct (rne_err (a / B64.pow2 e)) as [H1 H2].
  assert (Ea : a == a / B64.pow2 e * B64.pow2 e) by (field; lra).
  assert (Eh : B64.pow2 (e - 1) == (1 # 2) * B64.pow2 e).
  { pose proof (pow2_succ (e - 1)) as S. replace (e - 1 + 1)%Z with e in S by lia. lra. }
  set (x := a / B64.pow2 e) in *. set (r := inject_Z (B64.rne x)) in *.
  rewrite Eh.
  assert (L : (x - (1 # 2)) * B64.pow2 e <= r * B64.pow2 e) by (apply Qmult_le_compat_r; lra).
  assert (U : r * B64.pow2 e <= (x + (1 # 2)) * B64.pow2 e) by (apply Qmult_le_compat_r; lra).
  clearbody x r. clear H1 H2.
  set (p := B64.pow2 e) in *. clearbody p.
  split; nra.
Qed.

Lemma nearest_mono (a b : Q) : 0 < a -> a <= b -> B64.nearest a <= B64.nearest b.
Proof.
  intros Ha Hab. rewrite !nearest_grid.
  pose proof (exponent_mono a b Ha Hab) as He.
  destruct (Z.eq_dec (B64.exponent a) (B64.exponent b)) as [E | NE].
  - rewrite E. apply grid_mono, Hab.
  - assert (Hb : 0 < b) by lra.
    pose proof (exponent_upper a Ha) as Ua.
    assert (Lb : B64.pow2 (B64.exponent b + 52) <= b).
    { apply exponent_lower; [exact Hb |]. unfold B64.exponent in *. lia. }
    pose proof (grid_mono (B64.exponent a) _ _ (Qlt_le_weak _ _ Ua)) as G1.
    rewrite (grid_pow2 (B64.exponent a) 53 ltac:(lia)) in G1.
    pose proof (grid_mono (B64.exponent b) _ _ Lb) as G2.
    rewrite (grid_pow2 (B64.exponent b) 52 ltac:(lia)) in G2.
    assert (B64.pow2 (B64.exponent a + 53) <= B64.pow2 (B64.exponent b + 52)) by (apply pow2_le; lia).
    lra.
Qed.

Lemma nearest_pos (a : Q) : 0 < a -> 0 <= B64.nearest a.
Proof.
  intros Ha. unfold B64.nearest, B64.grid. pose proof (pow2_pos (B64.exponent a)) as P.
  apply Qmult_le_0_compat; [| lra].
  change 0 with (inject_Z 0). rewrite <- Zle_Qle.
  rewrite <- (rne_Z 0). apply rne_le.
  change (inject_Z 0) with 0.
  apply Qle_shift_div_l; [exact P | lra].
Qed.

(** Below 1 a rounding moves a number by at most 2^-54. *)
Lemma nearest_err (a : Q) :
  0 < a -> a < 1 ->
  a - B64.pow2 (-54) <= B64.nearest a /\ B64.nearest a <= a + B64.pow2 (-54).
Proof.
  intros Ha H1. rewrite nearest_grid.
  destruct (grid_err (B64.exponent a) a) as [G1 G2].
  assert (He : (B64.exponent a - 1 <= -54)%Z).
  { pose proof (ilog2_lt a 0 Ha H1). unfold B64.exponent. lia. }
  apply pow2_le in He. lra.
Qed.

(** A number that is its own rounding and is at least 2^-5 is a multiple
    of 2^-57. *)
Lemma nearest_multiple (a : Q) :
  B64.pow2 (-5) <= a -> B64.nearest a == a ->
  exists k : Z, a == inject_Z k * B64.pow2 (-57).
Proof.
  intros Ha E. pose proof (ilog2_ge a (-5) Ha) as Hl.
  assert (He : (-57 <= B64.exponent a)%Z) by (unfold B64.exponent; lia).
  exists (B64.rne (a / B64.pow2 (B64.exponent a)) * 2 ^ (B64.exponent a + 57))%Z.
  rewrite <- E at 1. unfold B64.nearest, B64.grid.
  rewrite inject_Z_mult, <- (pow2_Z (B64.exponent a + 57)) by lia.
  rewrite <- Qmult_assoc, <- pow2_add.
  replace (B64.exponent a + 57 + -57)%Z with (B64.exponent a) by lia. reflexivity.
Qed.

(** Multiples of 2^-57 at or above 1/10 are at or above twice the double
    0.05, and those at or below 9/10 are at or below 1 minus that. *)
Lemma multiple_ge_tenth (x : Q) (k : Z) :
  x == inject_Z k * (1 # 144115188075855872) -> 1 # 10 <= x ->
  14411518807585588 # 144115188075855872 <= x.
Proof.
  intros E H.
  assert (Hk : (14411518807585588 <= k)%Z).
  { assert (Hq : inject_Z 144115188075855872 <= inject_Z (10 * k)).
    { rewrite inject_Z_mult. change (inject_Z 10) with (10 # 1).
      change (inject_Z 144115188075855872) with (144115188075855872 # 1). lra. }
    rewrite <- Zle_Qle in Hq. lia. }
  rewrite Zle_Qle in Hk.
  change (inject_Z 14411518807585588) with (14411518807585588 # 1) in Hk. lra.
Qed.

Lemma multiple_le_nine_tenths (x : Q) (k : Z) :
  x == inject_Z k * (1 # 144115188075855872) -> x <= 9 # 10 ->
  x <= 129703669268270284 # 144115188075855872.
Proof.
  intros E H.
  assert (Hk : (k <= 129703669268270284)%Z).
  { assert (Hq : inject_Z (10 * k) <= inject_Z 1297036692682702848).
    { rewrite inject_Z_mult. change (inject_Z 10) with (10 # 1).
      change (inject_Z 1297036692682702848) with (1297036692682702848 # 1). lra. }
    rewrite <- Zle_Qle in Hq. lia. }
  rewrite Zle_Qle in Hk.
  change (inject_Z 129703669268270284) with (129703669268270284 # 1) in Hk. lra.
Qed.

End Rounding.

Ltac b64_unfold := unfold paddingQ, halfUlp in *; qc_unfold.
Ltac b64_lra := intros; try apply Qc_is_canon; b64_unfold; lra.

Lemma round64_pos (q : Qc) : 0 < q -> B64.round64 q = B64.round_pos q.
Proof.
  intros H. unfold B64.round64.
  destruct (Qccompare_cases q 0) as [E | E | E]; [| | reflexivity].
  - subst. exfalso. revert H. qc_lra.
  - exfalso. revert H E. qc_lra.
Qed.

(** Rounding never yields [NaN]. *)
Lemma round64_defined (q : Qc) : B64.round64 q <> NaN.
Proof.
  unfold B64.round64, B64.round_pos.
  destruct (q ?= 0); try discriminate;
    destruct (Qle_bool _ _); discriminate.
Qed.

Lemma pow2_1024_big : (2 < B64.pow2 1024)%Q.
Proof. change 2%Q with (B64.pow2 1). apply pow2_lt. lia. Qed.

(** Rounding keeps the order of positive numbers. *)
Lemma round64_mono (a b : Qc) :
  0 < a -> a <= b -> le (B64.round64 a) (B64.round64 b) = true.
Proof.
  intros Ha Hab.
  assert (Hb : 0 < b) by (revert Ha Hab; qc_lra).
  rewrite (round64_pos a Ha), (round64_pos b Hb). unfold B64.round_pos.
  assert (Hm : (B64.nearest a <= B64.nearest b)%Q).
  { apply nearest_mono; [exact Ha | exact Hab]. }
  destruct (Qle_bool (B64.pow2 1024) (B64.nearest a)) eqn:Ea;
    destruct (Qle_bool (B64.pow2 1024) (B64.nearest b)) eqn:Eb;
    try reflexivity.
  - apply Qle_bool_iff in Ea.
    assert (Hc : (B64.pow2 1024 <= B64.nearest b)%Q) by lra.
    apply Qle_bool_iff in Hc. congruence.
  - apply le_Fin. unfold Qcle. cbn [this Q2Qc]. rewrite !Qred_correct. exact Hm.
Qed.

(** Below 1 a rounding yields a real at most [halfUlp] away. *)
Lemma round64_small (q : Qc) :
  0 < q -> q < 1 ->
  exists v : Qc, B64.round64 q = Fin v /\ q - halfUlp <= v /\ v <= q + halfUlp.
Proof.
  intros H0 H1. rewrite (round64_pos q H0). unfold B64.round_pos.
  destruct (nearest_err q) as [E1 E2]; [exact H0 | exact H1 |].
  assert (Ep : (B64.pow2 (-54) == 1 # 18014398509481984)%Q) by reflexivity.
  rewrite Ep in E1, E2. pose proof pow2_1024_big as Hbig.
  assert (Hq1 : (q < 1)%Q) by exact H1.
  destruct (Qle_bool (B64.pow2 1024) (B64.nearest q)) eqn:Eo.
  - apply Qle_bool_iff in Eo. exfalso. lra.
  - exists (Q2Qc (B64.nearest q)). split; [reflexivity |].
    unfold halfUlp, Qcle, Qcminus, Qcplus, Qcopp. cbn [this Q2Qc].
    rewrite !Qred_correct. split; lra.
Qed.

Lemma isDouble_fixed (c : Qc) :
  isDouble (Fin c) = true -> B64.round64 c = Fin c.
Proof. unfold isDouble. apply number_eqb_eq. Qed.

(** A double that is at least 1/32 is a multiple of 2^-57. *)
Lemma isDouble_multiple (c : Qc) :
  isDouble (Fin c) = true -> Q2Qc (1 # 32) <= c ->
  exists k : Z, (c == inject_Z k * (1 # 144115188075855872))%Q.
Proof.
  intros Hd Hc. apply isDouble_fixed in Hd.
  assert (H0 : 0 < c) by (revert Hc; qc_lra).
  rewrite (round64_pos c H0) in Hd. unfold B64.round_pos in Hd.
  destruct (Qle_bool (B64.pow2 1024) (B64.nearest c)); [discriminate |].
  injection Hd as Hd. apply (f_equal this) in Hd. cbn [this Q2Qc] in Hd.
  assert (E : (B64.nearest c == c)%Q).
  { rewrite <- (Qred_correct (B64.nearest c)), Hd. reflexivity. }
  assert (E5 : (B64.pow2 (-5) == 1 # 32)%Q) by reflexivity.
  assert (E57 : (B64.pow2 (-57) == 1 # 144115188075855872)%Q) by reflexivity.
  destruct (nearest_multiple c) as [k Hk]; [| exact E |].
  - rewrite E5. revert Hc. qc_unfold. intros Hc. exact Hc.
  - exists k. rewrite <- E57. exact Hk.
Qed.

(* ================================================================== *)
(** ** The cut position model *)
(* ================================================================== *)

Lemma gapInvariant_inv (cs : list number) :
  gapInvariant cs = true ->
  exists c0 c1 c2 : Qc,
    cs = [Fin c0; Fin c1; Fin c2]
    /\ minGap <= c0 /\ c0 + minGap <= c1 /\ c1 + minGap <= c2
    /\ c2 <= 1 - minGap.
Proof.
  unfold gapInvariant.
  destruct cs as [| [c0 | | |] [| [c1 | | |] [| [c2 | | |] [| ? ?]]]];
    try discriminate.
  rewrite !andb_true_iff, !le_Fin. intros [[[H0 H1] H2] H3].
  exists c0, c1, c2. auto.
Qed.

Lemma gapInvariant_intro (c0 c1 c2 : Qc) :
  minGap <= c0 -> c0 + minGap <= c1 -> c1 + minGap <= c2 ->
  c2 <= 1 - minGap ->
  gapInvariant [Fin c0; Fin c1; Fin c2] = true.
Proof.
  intros. unfold gapInvariant. rewrite !andb_true_iff, !le_Fin. auto.
Qed.

(** The numbers the code has for 0.05, for 0 + 0.05 and for 1 - 0.05. *)
Lemma padding_Q : padding = Fin paddingQ.
Proof. apply number_eqb_eq. vm_compute. reflexivity. Qed.

Lemma prevLimit_first : B64.add (Fin 0) padding = Fin paddingQ.
Proof. apply number_eqb_eq. vm_compute. reflexivity. Qed.

Lemma nextLimit_last :
  B64.sub (Fin 1) padding = Fin (Q2Qc (4278419646001971 # 4503599627370496)).
Proof. apply number_eqb_eq. vm_compute. reflexivity. Qed.

Lemma round64_paddingQ : B64.round64 paddingQ = Fin paddingQ.
Proof. apply number_eqb_eq. vm_compute. reflexivity. Qed.

(** The rounding on known doubles: the decimal literals 0.1 and 0.2, the
    sums [0.1 + 0.2 = 0.30000000000000004] and
    [0.1 + 0.05 = 0.15000000000000002], the difference [0.5 - 0.05 = 0.45],
    the quotients [48 / 400 = 0.12] and [1 / 3], the difference
    [0.12 - 0.05 = 0.06999999999999999]; the largest double and the
    overflow above it; the smallest double and the underflow below it. *)
Lemma round64_samples :
  B64.of_Q 0.1 = Fin (Q2Qc (3602879701896397 # 36028797018963968))
  /\ B64.of_Q 0.2 = Fin (Q2Qc (3602879701896397 # 18014398509481984))
  /\ B64.add (B64.of_Q 0.1) (B64.of_Q 0.2)
     = Fin (Q2Qc (1351079888211149 # 4503599627370496))
  /\ B64.add (B64.of_Q 0.1) padding
     = Fin (Q2Qc (1351079888211149 # 9007199254740992))
  /\ B64.sub half padding = Fin (Q2Qc (8106479329266893 # 18014398509481984))
  /\ B64.div (of_Z 48) (of_Z 400)
     = Fin (Q2Qc (1080863910568919 # 9007199254740992))
  /\ B64.div (of_Z 1) (of_Z 3)
     = Fin (Q2Qc (6004799503160661 # 18014398509481984))
  /\ B64.sub (B64.of_Q 0.12) padding
     = Fin (Q2Qc (5044031582654955 # 72057594037927936))
  /\ B64.of_Q (B64.pow2 1024 - B64.pow2 971)
     = Fin (Q2Qc (B64.pow2 1024 - B64.pow2 971))
  /\ B64.of_Q (B64.pow2 1024 - B64.pow2 970) = PosInf
  /\ B64.of_Q (- B64.pow2 1024) = NegInf
  /\ B64.of_Q (B64.pow2 (-1074)) = Fin (Q2Qc (B64.pow2 (-1074)))
  /\ B64.of_Q (B64.pow2 (-1075)) = Fin 0
  /\ B64.of_Q (3 * B64.pow2 (-1075)) = Fin (Q2Qc (B64.pow2 (-1073))).
Proof.
  repeat split; apply number_eqb_eq; vm_compute; reflexivity.
Qed.

Lemma nearGapInvariant_intro (c0 c1 c2 : Qc) :
  minGap <= c0 -> c0 + minGap <= c1 + halfUlp -> c1 + minGap <= c2 + halfUlp ->
  c2 <= 1 - minGap ->
  nearGapInvariant [Fin c0; Fin c1; Fin c2] = true.
Proof.
  intros. unfold nearGapInvariant. rewrite !andb_true_iff, !le_Fin. auto.
Qed.

Lemma allDoubles_inv (c0 c1 c2 : Qc) :
  allDoubles [Fin c0; Fin c1; Fin c2] = true ->
  isDouble (Fin c0) = true /\ isDouble (Fin c1) = true /\ isDouble (Fin c2) = true.
Proof.
  unfold allDoubles. cbn [forallb]. rewrite !andb_true_iff. tauto.
Qed.

(** [c + 0.05] and [c - 0.05] in the code, when the exact result lies
    strictly between 0 and 1. *)
Lemma add_padding (c : Qc) :
  0 < c + paddingQ -> c + paddingQ < 1 ->
  exists lo : Qc, B64.add (Fin c) padding = Fin lo
                  /\ c + paddingQ - halfUlp <= lo /\ lo <= c + paddingQ + halfUlp.
Proof.
  intros H0 H1. rewrite padding_Q. cbn [B64.add].
  apply round64_small; assumption.
Qed.

Lemma sub_padding (c : Qc) :
  0 < c - paddingQ -> c - paddingQ < 1 ->
  exists hi : Qc, B64.sub (Fin c) padding = Fin hi
                  /\ c - paddingQ - halfUlp <= hi /\ hi <= c - paddingQ + halfUlp.
Proof.
  intros H0 H1. rewrite padding_Q. cbn [B64.sub].
  apply round64_small; assumption.
Qed.

(** Two doubles between 1/20 and 1 that are at least 1/10 apart are at
    least twice the double 0.05 apart. *)
Lemma doubles_apart (a b : Qc) :
  isDouble (Fin a) = true -> isDouble (Fin b) = true ->
  minGap <= a -> a + minGap + minGap <= b ->
  a + paddingQ <= b - paddingQ.
Proof.
  intros Da Db Ha Hab.
  destruct (isDouble_multiple a Da) as [ka Ea]; [revert Ha; qc_lra |].
  destruct (isDouble_multiple b Db) as [kb Eb]; [revert Ha Hab; qc_lra |].
  assert (Hx : (14411518807585588 # 144115188075855872 <= b - a)%Q).
  { apply (multiple_ge_tenth _ (kb - ka)).
    - rewrite Ea, Eb. unfold Z.sub. rewrite inject_Z_plus, inject_Z_opp. ring.
    - revert Hab. clear. qc_unfold. intros H. lra. }
  revert Hx. clear. b64_unfold. intros Hx. lra.
Qed.

(** A double that is at least 1/10 is at least twice the double 0.05, and
    one that is at most 9/10 is at most 1 minus that. *)
Lemma double_above (b : Qc) :
  isDouble (Fin b) = true -> minGap + minGap <= b -> paddingQ <= b - paddingQ.
Proof.
  intros Db Hb.
  destruct (isDouble_multiple b Db) as [kb Eb]; [revert Hb; qc_lra |].
  assert (Hx : (14411518807585588 # 144115188075855872 <= b)%Q).
  { apply (multiple_ge_tenth _ kb Eb). revert Hb. clear. qc_unfold. intros H. lra. }
  revert Hx. clear. b64_unfold. intros Hx. lra.
Qed.

Lemma double_below (a : Qc) :
  isDouble (Fin a) = true -> minGap <= a -> a + minGap + minGap <= 1 ->
  a + paddingQ <= 1 - paddingQ.
Proof.
  intros Da Ha Ha'.
  destruct (isDouble_multiple a Da) as [ka Ea]; [revert Ha; qc_lra |].
  assert (Hx : (a <= 129703669268270284 # 144115188075855872)%Q).
  { apply (multiple_le_nine_tenths _ ka Ea). revert Ha'. clear. qc_unfold. intros H. lra. }
  revert Hx. clear. b64_unfold. intros Hx. lra.
Qed.

Lemma set_other (a : list number) (i j : nat) (v : number) :
  j <> i -> (i < List.length a)%nat -> nth_error (JS.set a i v) j = nth_error a j.
Proof.
  revert i j. induction a as [| x a IH]; intros i j Hne Hlt.
  - simpl in Hlt. lia.
  - destruct i, j; simpl in *; try reflexivity; try congruence.
    apply IH; [congruence | lia].
Qed.

Lemma set_same (a : list number) (i : nat) (v : number) :
  nth_error (JS.set a i v) i = Some v.
Proof.
  revert i. induction a as [| x a IH]; intros i.
  - induction i; simpl; auto.
  - destruct i; simpl; auto.
Qed.

Lemma set_length (a : list number) (i : nat) (v : number) :
  (i < List.length a)%nat -> List.length (JS.set a i v) = List.length a.
Proof.
  revert i. induction a as [| x a IH]; intros i Hlt; simpl in *; [lia |].
  destruct i; simpl; auto. rewrite IH; auto. lia.
Qed.

(** [NaN] goes through the clamp untouched, whatever the limits. *)
Lemma clampPct_NaN (cs : list number) (index : nat) :
  clampPct cs index NaN = NaN.
Proof.
  unfold clampPct. cbn [JS.min]. destruct (prevLimit cs index); reflexivity.
Qed.

Lemma set_NaN_invalid (cs : list number) (index : nat) :
  (index < List.length cs)%nat ->
  gapInvariant (JS.set cs index NaN) = false
  /\ nearGapInvariant (JS.set cs index NaN) = false.
Proof.
  intros Hlt.
  pose proof (set_same cs index NaN) as Hn.
  pose proof (set_length cs index NaN Hlt) as HL.
  destruct (JS.set cs index NaN)
    as [| [c0 | | |] [| [c1 | | |] [| [c2 | | |] [| ? ?]]]];
    try (split; reflexivity).
  destruct index as [| [| [| index]]]; try discriminate.
  simpl in HL. lia.
Qed.

(** Between real limits in the right order the clamp of any number but
    [NaN] is a real between them. *)
Lemma clamp_number (lo hi : Qc) (raw : number) :
  lo <= hi -> raw <> NaN ->
  exists v, JS.max (Fin lo) (JS.min raw (Fin hi)) = Fin v /\ lo <= v /\ v <= hi.
Proof.
  intros Hle Hraw. destruct raw as [q | | |].
  - apply clamp_Fin, Hle.
  - exists hi. change (JS.min PosInf (Fin hi)) with (Fin hi).
    rewrite max_Fin, (proj2 (le_Fin lo hi) Hle).
    repeat split; [exact Hle | apply Qcle_refl].
  - exists lo. repeat split; [apply Qcle_refl | exact Hle].
  - congruence.
Qed.

(** The limits of a cut of a valid CutSet of doubles: reals in the right
    order, and any real stored between them leaves the gap invariant
    standing up to one rounding. *)
Lemma limits_ordered (cs : list number) (index : nat) :
  gapInvariant cs = true -> allDoubles cs = true -> (index <= 2)%nat ->
  exists lo hi : Qc,
    prevLimit cs index = Fin lo /\ nextLimit cs index = Fin hi /\ lo <= hi
    /\ (forall v, lo <= v -> v <= hi ->
                  nearGapInvariant (JS.set cs index (Fin v)) = true).
Proof.
  intros Hinv Hdbl Hidx.
  destruct (gapInvariant_inv cs Hinv) as (c0 & c1 & c2 & -> & G0 & G1 & G2 & G3).
  destruct (allDoubles_inv c0 c1 c2 Hdbl) as (D0 & D1 & D2).
  destruct index as [| [| [| index]]]; [| | | lia].
  - (* cut 0: between 0 + 0.05 and cut 1 - 0.05 *)
    assert (Hreal : paddingQ <= c1 - paddingQ).
    { apply (double_above c1 D1). revert G0 G1. qc_lra. }
    destruct (sub_padding c1) as (hi & Ehi & H1 & H2);
      [revert Hreal; b64_lra | revert G2 G3; b64_lra |].
    assert (Hle : paddingQ <= hi).
    { apply le_Fin. rewrite <- round64_paddingQ, <- Ehi, padding_Q.
      cbn [B64.sub]. apply round64_mono; [b64_lra | exact Hreal]. }
    exists paddingQ, hi.
    split; [exact prevLimit_first |]. split; [exact Ehi |]. split; [exact Hle |].
    intros v Hv1 Hv2. cbn [JS.set]. apply nearGapInvariant_intro.
    + revert Hv1. b64_lra.
    + revert Hv2 H2. b64_lra.
    + revert G2. b64_lra.
    + exact G3.
  - (* cut 1: between cut 0 + 0.05 and cut 2 - 0.05 *)
    assert (Hreal : c0 + paddingQ <= c2 - paddingQ).
    { apply (doubles_apart c0 c2 D0 D2 G0). revert G1 G2. qc_lra. }
    destruct (add_padding c0) as (lo & Elo & L1 & L2);
      [revert G0; b64_lra | revert G1 G2 G3; b64_lra |].
    destruct (sub_padding c2) as (hi & Ehi & H1 & H2);
      [revert G0 Hreal; b64_lra | revert G3; b64_lra |].
    assert (Hle : lo <= hi).
    { apply le_Fin. rewrite <- Elo, <- Ehi, padding_Q.
      cbn [B64.add B64.sub]. apply round64_mono; [revert G0; b64_lra | exact Hreal]. }
    exists lo, hi. split; [exact Elo |]. split; [exact Ehi |]. split; [exact Hle |].
    intros v Hv1 Hv2. cbn [JS.set]. apply nearGapInvariant_intro.
    + exact G0.
    + revert Hv1 L1. b64_lra.
    + revert Hv2 H2. b64_lra.
    + exact G3.
  - (* cut 2: between cut 1 + 0.05 and 1 - 0.05 *)
    assert (Hreal : c1 + paddingQ <= 1 - paddingQ).
    { apply (double_below c1 D1); [revert G0 G1; qc_lra | revert G2 G3; qc_lra]. }
    destruct (add_padding c1) as (lo & Elo & L1 & L2);
      [revert G0 G1; b64_lra | revert Hreal; b64_lra |].
    set (hi := Q2Qc (4278419646001971 # 4503599627370496)).
    assert (Hle : lo <= hi).
    { apply le_Fin. rewrite <- Elo. unfold hi. rewrite <- nextLimit_last, padding_Q.
      cbn [B64.add B64.sub]. apply round64_mono; [revert G0 G1; b64_lra | exact Hreal]. }
    exists lo, hi. split; [exact Elo |]. split; [exact nextLimit_last |].
    split; [exact Hle |].
    intros v Hv1 Hv2. cbn [JS.set]. apply nearGapInvariant_intro.
    + exact G0.
    + revert G1. b64_lra.
    + revert Hv1 L1. b64_lra.
    + revert Hv2. unfold hi. b64_lra.
Qed.

(** The clamp-and-store on a valid CutSet of doubles, for any raw number
    but [NaN]. *)
Lemma setCut_clamped (cs : list number) (index : nat) (raw : number) :
  gapInvariant cs = true -> allDoubles cs = true -> (index <= 2)%nat ->
  raw <> NaN ->
  exists lo hi v : Qc,
    prevLimit cs index = Fin lo /\ nextLimit cs index = Fin hi /\ lo <= hi
    /\ clampPct cs index raw = Fin v /\ lo <= v /\ v <= hi
    /\ nth_error (setCut index raw cs) index = Some (Fin v)
    /\ (forall j, j <> index ->
          nth_error (setCut index raw cs) j = nth_error cs j)
    /\ List.length (setCut index raw cs) = 3%nat
    /\ nearGapInvariant (setCut index raw cs) = true.
Proof.
  intros Hinv Hdbl Hidx Hraw.
  destruct (limits_ordered cs index Hinv Hdbl Hidx)
    as (lo & hi & Hlo & Hhi & Hle & Hset).
  destruct (clamp_number lo hi raw Hle Hraw) as (v & Hv & Hv1 & Hv2).
  assert (Hlen : List.length cs = 3%nat).
  { destruct (gapInvariant_inv cs Hinv) as (c0 & c1 & c2 & -> & _). reflexivity. }
  exists lo, hi, v. unfold setCut, clampPct. rewrite Hlo, Hhi, Hv.
  repeat split; auto.
  - apply set_same.
  - intros j Hj. apply set_other; [assumption | lia].
  - rewrite set_length; [assumption | lia].
Qed.

(** C1, as stated, fails: on the default CutSet, with the raw value 5 for
    cut 0, the upper limit [0.5 - 0.05] is rounded to the double 0.45,
    which is stored, and that double is less than 0.05 below 0.5. *)
Lemma setCut_rounding_breaks_gapInvariant :
  gapInvariant initialCuts = true
  /\ setCut 0 (of_Z 5) initialCuts = [B64.of_Q 0.45; half; threeQuarters]
  /\ gapInvariant (setCut 0 (of_Z 5) initialCuts) = false.
Proof.
  split; [reflexivity |]. split; [| vm_compute; reflexivity].
  apply (all2_eq number_eqb number_eqb_eq). vm_compute. reflexivity.
Qed.

(** C1, amended.  For every CutSet of doubles that satisfies the gap
    invariant, every cut index 0, 1 or 2 and every raw value that is not
    [NaN] (a real inside or outside [0,1], or an infinity), the
    clamp-and-store of the pointer move returns (it is a total function:
    nothing can be thrown) a CutSet in which only [cut[index]] may differ
    from before.  What it stores is a real between the two limits the code
    computes, which are in the right order; and the result satisfies the
    gap invariant up to one rounding: the two inner gaps are at least
    [0.05 - 2^-54], and [0.05 <= cut[0]] and [cut[2] <= 1 - 0.05] hold
    exactly. *)
Theorem setCut_clamps_between_limits
  (cs : list number) (index : nat) (rawValue : number) :
  gapInvariant cs = true -> allDoubles cs = true -> (index <= 2)%nat ->
  rawValue <> NaN ->
  exists lo hi v : Qc,
    prevLimit cs index = Fin lo /\ nextLimit cs index = Fin hi /\ lo <= hi
    /\ clampPct cs index rawValue = Fin v /\ lo <= v /\ v <= hi
    /\ nth_error (setCut index rawValue cs) index = Some (Fin v)
    /\ (forall j, j <> index ->
          nth_error (setCut index rawValue cs) j = nth_error cs j)
    /\ List.length (setCut index rawValue cs) = 3%nat
    /\ nearGapInvariant (setCut index rawValue cs) = true.
Proof. exact (setCut_clamped cs index rawValue). Qed.

Lemma setCut_clamps_between_limits_witness :
  nearGapInvariant (setCut 0 (of_Q (-0.3)) initialCuts) = true
  /\ setCut 0 (of_Q (-0.3)) initialCuts = [B64.of_Q 0.05; half; threeQuarters].
Proof.
  split.
  - destruct (setCut_clamps_between_limits initialCuts 0 (of_Q (-0.3))
                eq_refl eq_refl (Nat.le_0_l 2))
      as (lo & hi & v & H); [discriminate |].
    apply H.
  - apply (all2_eq number_eqb number_eqb_eq). vm_compute. reflexivity.
Defined.



(** C5.  Whatever the current axis, CutSet and results, the axis switch
    installs the new axis, puts the CutSet back to {0.25, 0.50, 0.75}
    (also when the new axis is the current one) and empties the exposed
    results; the drag session and the processing flag are left alone. *)
Theorem handleDirectionChange_resets (newDirection : SplitDirection) (st : State) :
  direction (handleDirectionChange newDirection st) = newDirection
  /\ cuts (handleDirectionChange newDirection st)
     = [of_Q 0.25; of_Q 0.50; of_Q 0.75]
  /\ results (handleDirectionChange newDirection st) = []
  /\ activeDragIndex (handleDirectionChange newDirection st) = activeDragIndex st
  /\ isProcessing (handleDirectionChange newDirection st) = isProcessing st.
Proof. repeat split. Qed.

(* ================================================================== *)
(** ** The drag session *)
(* ================================================================== *)

(** C7, as stated, fails: started on index 5 of the initial session, the
    drag session exists and the state has changed. *)
Lemma handleDragStart_out_of_range_recorded :
  (2 < 5)%nat
  /\ activeDragIndex (handleDragStart 5 initialState) = Some 5%nat
  /\ handleDragStart 5 initialState <> initialState.
Proof.
  split; [lia |]. split; [reflexivity |]. discriminate.
Qed.

(** C7, amended.  [handleDragStart] checks no range: for every index, in
    [0,2] or not, the drag session becomes that index, and nothing else of
    the state changes. *)
Theorem handleDragStart_records_any_index (index : nat) (st : State) :
  activeDragIndex (handleDragStart index st) = Some index
  /\ cuts (handleDragStart index st) = cuts st
  /\ direction (handleDragStart index st) = direction st
  /\ results (handleDragStart index st) = results st
  /\ isProcessing (handleDragStart index st) = isProcessing st
  /\ alerts (handleDragStart index st) = alerts st.
Proof. repeat split. Qed.

(* ================================================================== *)
(** ** The rasterizer: how a pass ends *)
(* ================================================================== *)

(** C8, as stated, fails: without a 2d context the pass on a session that
    already shows four slices ends with the same four slices exposed and
    nothing said to the user. *)
Lemma generateSlices_no_context_silent :
  fst (generateSlices noContextEnv slicedState) = Aborted
  /\ alerts (snd (generateSlices noContextEnv slicedState)) = []
  /\ results (snd (generateSlices noContextEnv slicedState)) = results slicedState
  /\ List.length (results slicedState) = 4%nat.
Proof. repeat split. Qed.

(** C8, amended.  When there is an image element but no 2d context, the
    pass aborts before the loop: [onResultsGenerated] is not called, so the
    exposed results are exactly the ones from before (nothing new, nothing
    partial), the processing flag ends [false], and no message reaches the
    user. *)
Theorem generateSlices_no_context (env : Env) (st : State) (img : HTMLImageElement) :
  imageRef env = Some img -> context2d env = false ->
  fst (generateSlices env st) = Aborted
  /\ results (snd (generateSlices env st)) = results st
  /\ isProcessing (snd (generateSlices env st)) = false
  /\ alerts (snd (generateSlices env st)) = alerts st
  /\ cuts (snd (generateSlices env st)) = cuts st
  /\ direction (snd (generateSlices env st)) = direction st.
Proof.
  intros Himg Hctx. unfold generateSlices. rewrite Himg, Hctx.
  repeat split.
Qed.

Lemma generateSlices_no_context_witness :
  fst (generateSlices noContextEnv initialState) = Aborted
  /\ results (snd (generateSlices noContextEnv initialState)) = [].
Proof.
  destruct (generateSlices_no_context noContextEnv initialState image400x200)
    as (H1 & H2 & _); [reflexivity | reflexivity |].
  split; [exact H1 | exact H2].
Defined.

(** A pass with an image that is complete and a context runs to the
    end, and what it exposes is [newResults] of axis, cuts and image. *)
Lemma generateSlices_completed (env : Env) (st : State) (img : HTMLImageElement) :
  imageRef env = Some img -> context2d env = true -> complete img = true ->
  fst (generateSlices env st) = Completed
  /\ results (snd (generateSlices env st)) = newResults (direction st) (cuts st) img
  /\ cuts (snd (generateSlices env st)) = cuts st
  /\ direction (snd (generateSlices env st)) = direction st
  /\ alerts (snd (generateSlices env st)) = alerts st.
Proof.
  intros Himg Hctx Hc. unfold generateSlices. rewrite Himg, Hctx, Hc.
  repeat split.
Qed.

Lemma sliceAt_dimensions (d : SplitDirection) (img img' : HTMLImageElement)
      (sorted : list number) (i : nat) :
  naturalWidth img = naturalWidth img' ->
  naturalHeight img = naturalHeight img' ->
  sliceAt d img sorted i = sliceAt d img' sorted i.
Proof.
  intros HW HH. unfold sliceAt, sliceRect. rewrite HW, HH. reflexivity.
Qed.

Lemma newResults_dimensions (d : SplitDirection) (cs : list number)
      (img img' : HTMLImageElement) :
  naturalWidth img = naturalWidth img' ->
  naturalHeight img = naturalHeight img' ->
  newResults d cs img = newResults d cs img'.
Proof.
  intros HW HH. unfold newResults.
  generalize (List.length (sortedCuts cs) - 1)%nat as count.
  generalize 0%nat as i.
  intros i count. revert i.
  induction count as [| count IH]; intros i; simpl; [reflexivity |].
  rewrite (sliceAt_dimensions d img img' _ _ HW HH), !IH. reflexivity.
Qed.

(** C9.  Two passes that run to the end on the same axis, the same CutSet
    and images of the same natural size expose the same results, rectangle
    by rectangle and index by index, whatever else differs between the two
    sessions (earlier results, drag session, flags); and running the pass a
    second time on the session it produced changes nothing exposed. *)
Theorem generateSlices_deterministic
  (env1 env2 : Env) (st1 st2 : State) (img1 img2 : HTMLImageElement) :
  imageRef env1 = Some img1 -> imageRef env2 = Some img2 ->
  context2d env1 = true -> context2d env2 = true ->
  complete img1 = true -> complete img2 = true ->
  naturalWidth img1 = naturalWidth img2 ->
  naturalHeight img1 = naturalHeight img2 ->
  direction st1 = direction st2 -> cuts st1 = cuts st2 ->
  results (snd (generateSlices env1 st1)) = results (snd (generateSlices env2 st2))
  /\ map drawn (results (snd (generateSlices env1 st1)))
     = map drawn (results (snd (generateSlices env2 st2)))
  /\ results (snd (generateSlices env1 (snd (generateSlices env1 st1))))
     = results (snd (generateSlices env1 st1)).
Proof.
  intros I1 I2 X1 X2 C1 C2 HW HH HD HC.
  destruct (generateSlices_completed env1 st1 img1 I1 X1 C1) as (_ & R1 & K1 & D1 & _).
  destruct (generateSlices_completed env2 st2 img2 I2 X2 C2) as (_ & R2 & _ & _).
  destruct (generateSlices_completed env1 (snd (generateSlices env1 st1)) img1 I1 X1 C1)
    as (_ & R3 & _ & _).
  assert (E : results (snd (generateSlices env1 st1))
              = results (snd (generateSlices env2 st2))).
  { rewrite R1, R2, HD, HC. apply newResults_dimensions; assumption. }
  split; [exact E |]. split; [rewrite E; reflexivity |].
  rewrite R3, R1, K1, D1. reflexivity.
Qed.

Lemma generateSlices_deterministic_witness :
  results (snd (generateSlices readyEnv initialState))
  = results (snd (generateSlices readyEnv (handleDragStart 1 slicedState))).
Proof.
  apply (generateSlices_deterministic readyEnv readyEnv initialState
           (handleDragStart 1 slicedState) image400x200 image400x200);
    reflexivity.
Defined.

(* ================================================================== *)
(** ** The rasterizer: the rectangles *)
(* ================================================================== *)

(** C2.  On a 400 x 200 image with the cuts {0.25, 0.5, 0.75}, the loop
    for the axis VERTICAL (columns) produces, in index order 0, 1, 2, 3,
    the rectangles (0,0,100,200), (100,0,100,200), (200,0,100,200),
    (300,0,100,200); for HORIZONTAL (rows) it produces (0,0,400,50),
    (0,50,400,50), (0,100,400,50), (0,150,400,50).  The full pass exposes
    exactly these. *)
Theorem scenario_A_B :
  newResults VERTICAL [of_Q 0.25; of_Q 0.5; of_Q 0.75] image400x200
  = [slice 0 0 0 100 200; slice 1 100 0 100 200;
     slice 2 200 0 100 200; slice 3 300 0 100 200]
  /\ newResults HORIZONTAL [of_Q 0.25; of_Q 0.5; of_Q 0.75] image400x200
     = [slice 0 0 0 400 50; slice 1 0 50 400 50;
        slice 2 0 100 400 50; slice 3 0 150 400 50]
  /\ map drawn (results (snd (generateSlices readyEnv initialState)))
     = [pixels 0 0 100 200; pixels 100 0 100 200;
        pixels 200 0 100 200; pixels 300 0 100 200]
  /\ map drawn (results (snd (generateSlices readyEnv
                                (handleDirectionChange HORIZONTAL initialState))))
     = [pixels 0 0 400 50; pixels 0 50 400 50;
        pixels 0 100 400 50; pixels 0 150 400 50].
Proof.
  repeat split.
  - apply (all2_eq result_eqb result_eqb_eq). vm_compute. reflexivity.
  - apply (all2_eq result_eqb result_eqb_eq). vm_compute. reflexivity.
  - apply (all2_eq rect_eqb rect_eqb_eq). vm_compute. reflexivity.
  - apply (all2_eq rect_eqb rect_eqb_eq). vm_compute. reflexivity.
Qed.

(** *** Sorting the boundaries *)

Lemma sub_Fin (a b : Qc) : sub (Fin a) (Fin b) = Fin (a - b).
Proof. reflexivity. Qed.

Lemma insert_length (cmp : number -> number -> number) (x : number) (l : list number) :
  List.length (insert cmp x l) = S (List.length l).
Proof.
  induction l as [| y l IH]; cbn [insert]; [reflexivity |].
  destruct (lt (Fin 0) (cmp x y)); cbn [List.length]; rewrite ?IH; reflexivity.
Qed.

Lemma sort_length (cmp : number -> number -> number) (l : list number) :
  List.length (JS.sort cmp l) = List.length l.
Proof.
  induction l as [| x l IH]; simpl; [reflexivity |].
  rewrite insert_length, IH. reflexivity.
Qed.

Lemma insert_sorted (x : Qc) (l : list number) :
  sorted l -> sorted (insert sub (Fin x) l).
Proof.
  intros Hs. induction Hs as [| a | a b l Hab Hs IH].
  - constructor.
  - cbn [insert]. rewrite sub_Fin.
    destruct (lt (Fin 0) (Fin (x - a))) eqn:E.
    + apply lt_Fin in E. repeat constructor. qc_lra.
    + apply lt_Fin_false in E. repeat constructor. qc_lra.
  - cbn [insert] in *. rewrite !sub_Fin in *.
    destruct (lt (Fin 0) (Fin (x - a))) eqn:E.
    + apply lt_Fin in E.
      destruct (lt (Fin 0) (Fin (x - b))) eqn:E'.
      * constructor; assumption.
      * apply lt_Fin_false in E'. constructor; [qc_lra | assumption].
    + apply lt_Fin_false in E.
      constructor; [qc_lra |]. constructor; assumption.
Qed.

Lemma sort_sorted (l : list number) :
  allFinite l = true -> sorted (JS.sort sub l).
Proof.
  induction l as [| x l IH]; cbn [JS.sort allFinite forallb].
  - constructor.
  - rewrite andb_true_iff. intros [Hx Hl].
    destruct x; try discriminate. apply insert_sorted, IH, Hl.
Qed.

(** On an array that is already in order the sort changes nothing. *)
Lemma sort_sorted_id (l : list number) :
  sorted l -> JS.sort sub l = l.
Proof.
  intros Hs. induction Hs as [| a | a b l Hab Hs IH]; try reflexivity.
  change (JS.sort sub (Fin a :: Fin b :: l))
    with (insert sub (Fin a) (JS.sort sub (Fin b :: l))).
  rewrite IH. cbn [insert]. rewrite sub_Fin.
  assert (E : lt (Fin 0) (Fin (a - b)) = false) by (apply lt_Fin_false; qc_lra).
  rewrite E. reflexivity.
Qed.

Lemma sorted_tail (x : number) (l : list number) : sorted (x :: l) -> sorted l.
Proof. intros Hs. inversion Hs; subst; [constructor | assumption]. Qed.

(** Two neighbours in a sorted array are reals in order. *)
Lemma sorted_get (l : list number) (i : nat) :
  sorted l -> (i + 1 < List.length l)%nat ->
  exists a b : Qc, get l i = Fin a /\ get l (i + 1) = Fin b /\ a <= b.
Proof.
  intros Hs. revert i. induction Hs as [| a | a b l Hab Hs IH]; intros i Hi.
  - simpl in Hi. lia.
  - simpl in Hi. lia.
  - destruct i as [| i].
    + exists a, b. auto.
    + destruct (IH i) as (a' & b' & Ha & Hb & Hle).
      { simpl in *. lia. }
      exists a', b'. auto.
Qed.

Lemma allFinite_boundaries (cs : list number) :
  allFinite cs = true -> allFinite (Fin 0 :: cs ++ [Fin 1]) = true.
Proof.
  intros Hf. unfold allFinite in *. cbn [forallb isFinite].
  rewrite forallb_app, Hf. reflexivity.
Qed.

Lemma sortedCuts_sorted (cs : list number) :
  allFinite cs = true -> sorted (sortedCuts cs).
Proof. intros Hf. apply sort_sorted, allFinite_boundaries, Hf. Qed.

Lemma sortedCuts_length (cs : list number) :
  List.length (sortedCuts cs) = (List.length cs + 2)%nat.
Proof.
  unfold sortedCuts. rewrite sort_length. cbn [List.length].
  rewrite length_app. simpl. lia.
Qed.

Lemma sortedCuts_ordered (c0 c1 c2 : Qc) :
  0 <= c0 -> c0 <= c1 -> c1 <= c2 -> c2 <= 1 ->
  sortedCuts [Fin c0; Fin c1; Fin c2] = [Fin 0; Fin c0; Fin c1; Fin c2; Fin 1].
Proof.
  intros. unfold sortedCuts. apply sort_sorted_id. cbn [app].
  repeat constructor; assumption.
Qed.

(** *** One iteration of the loop *)

Lemma N2Qc_nonneg (n : N) : 0 <= N2Qc n.
Proof.
  unfold N2Qc. qc_unfold. unfold Qle. simpl. lia.
Qed.

Lemma N2Qc_pos (n : N) : (0 < n)%N -> 0 < N2Qc n.
Proof.
  intros Hn. unfold N2Qc. qc_unfold. unfold Qlt. simpl. lia.
Qed.

Lemma axisLengthQ_pos (d : SplitDirection) (img : HTMLImageElement) :
  (0 < naturalWidth img)%N -> (0 < naturalHeight img)%N ->
  0 < axisLengthQ d img.
Proof. intros HW HH. destruct d; apply N2Qc_pos; assumption. Qed.

Lemma axisLength_Fin (d : SplitDirection) (img : HTMLImageElement) :
  axisLength d img = Fin (axisLengthQ d img).
Proof. destruct d; reflexivity. Qed.

Lemma sliceAt_Some (d : SplitDirection) (img : HTMLImageElement)
      (sorted : list number) (i : nat) (r : SplitResult) :
  sliceAt d img sorted i = Some r ->
  id r = i
  /\ drawn r = sliceRect d img (get sorted i)
                         (sub (get sorted (i + 1)) (get sorted i))
  /\ width r = sw (drawn r) /\ height r = sh (drawn r).
Proof.
  unfold sliceAt.
  destruct (le _ _ || le _ _); [discriminate |].
  intros E. injection E as <-. repeat split.
Qed.

(** A pair of boundaries with [sizePct <= 0] takes the [continue]. *)
Lemma sliceAt_degenerate (d : SplitDirection) (img : HTMLImageElement)
      (sorted : list number) (i : nat) (a b : Qc) :
  get sorted i = Fin a -> get sorted (i + 1) = Fin b -> b - a <= 0 ->
  sliceAt d img sorted i = None.
Proof.
  intros Ha Hb Hle. unfold sliceAt. rewrite Ha, Hb, sub_Fin.
  pose proof (N2Qc_nonneg (naturalWidth img)) as HW.
  pose proof (N2Qc_nonneg (naturalHeight img)) as HH.
  destruct d; cbn [sliceRect sw sh].
  - change (mul (of_N (naturalHeight img)) (Fin (b - a)))
      with (Fin (N2Qc (naturalHeight img) * (b - a))).
    assert (E : le (Fin (N2Qc (naturalHeight img) * (b - a))) (Fin 0) = true).
    { apply le_Fin. generalize dependent (N2Qc (naturalHeight img)). qc_nra. }
    rewrite E, orb_true_r. reflexivity.
  - change (mul (of_N (naturalWidth img)) (Fin (b - a)))
      with (Fin (N2Qc (naturalWidth img) * (b - a))).
    assert (E : le (Fin (N2Qc (naturalWidth img) * (b - a))) (Fin 0) = true).
    { apply le_Fin. generalize dependent (N2Qc (naturalWidth img)). qc_nra. }
    rewrite E. reflexivity.
Qed.

(** A pair of boundaries with [sizePct > 0] on an image with [W, H > 0]
    yields the result of that index. *)
Lemma sliceAt_positive (d : SplitDirection) (img : HTMLImageElement)
      (sorted : list number) (i : nat) (a b : Qc) :
  get sorted i = Fin a -> get sorted (i + 1) = Fin b -> a < b ->
  (0 < naturalWidth img)%N -> (0 < naturalHeight img)%N ->
  exists r, sliceAt d img sorted i = Some r
            /\ id r = i
            /\ start d (drawn r) = Fin (axisLengthQ d img * a)
            /\ extent d (drawn r) = Fin (axisLengthQ d img * (b - a)).
Proof.
  intros Ha Hb Hlt HW HH. unfold sliceAt. rewrite Ha, Hb, sub_Fin.
  apply N2Qc_pos in HW, HH.
  destruct d; cbn [sliceRect sw sh].
  - change (mul (of_N (naturalHeight img)) (Fin (b - a)))
      with (Fin (N2Qc (naturalHeight img) * (b - a))).
    change (of_N (naturalWidth img)) with (Fin (N2Qc (naturalWidth img))).
    assert (E1 : le (Fin (N2Qc (naturalWidth img))) (Fin 0) = false).
    { apply le_Fin_false. assumption. }
    assert (E2 : le (Fin (N2Qc (naturalHeight img) * (b - a))) (Fin 0) = false).
    { apply le_Fin_false. generalize dependent (N2Qc (naturalHeight img)). qc_nra. }
    rewrite E1, E2. cbn [orb]. eexists. repeat split.
  - change (mul (of_N (naturalWidth img)) (Fin (b - a)))
      with (Fin (N2Qc (naturalWidth img) * (b - a))).
    change (of_N (naturalHeight img)) with (Fin (N2Qc (naturalHeight img))).
    assert (E1 : le (Fin (N2Qc (naturalHeight img))) (Fin 0) = false).
    { apply le_Fin_false. assumption. }
    assert (E2 : le (Fin (N2Qc (naturalWidth img) * (b - a))) (Fin 0) = false).
    { apply le_Fin_false. generalize dependent (N2Qc (naturalWidth img)). qc_nra. }
    rewrite E1, E2. cbn [orb]. eexists. repeat split.
Qed.

(** *** The loop as a whole *)

Lemma sliceLoop_In (d : SplitDirection) (img : HTMLImageElement)
      (sorted : list number) (count i : nat) (r : SplitResult) :
  In r (sliceLoop d img sorted i count) <->
  exists j, (i <= j < i + count)%nat /\ sliceAt d img sorted j = Some r.
Proof.
  revert i. induction count as [| count IH]; intros i; cbn [sliceLoop].
  - split; [intros [] | intros (j & Hj & _); lia].
  - destruct (sliceAt d img sorted i) as [r0 |] eqn:E.
    + cbn [In]. rewrite IH. split.
      * intros [<- | (j & Hj & Hr)]; [exists i | exists j]; split; auto; lia.
      * intros (j & Hj & Hr).
        destruct (Nat.eq_dec j i) as [-> | Hne].
        -- left. congruence.
        -- right. exists j. split; [lia | assumption].
    + rewrite IH. split.
      * intros (j & Hj & Hr). exists j. split; [lia | assumption].
      * intros (j & Hj & Hr).
        destruct (Nat.eq_dec j i) as [-> | Hne]; [congruence |].
        exists j. split; [lia | assumption].
Qed.

Lemma sliceLoop_length (d : SplitDirection) (img : HTMLImageElement)
      (sorted : list number) (count i : nat) :
  (List.length (sliceLoop d img sorted i count) <= count)%nat.
Proof.
  revert i. induction count as [| count IH]; intros i; cbn [sliceLoop].
  - simpl. lia.
  - specialize (IH (S i)).
    destruct (sliceAt d img sorted i); cbn [List.length]; lia.
Qed.

Lemma sliceLoop_length_skip (d : SplitDirection) (img : HTMLImageElement)
      (sorted : list number) (count i j : nat) :
  (i <= j < i + count)%nat -> sliceAt d img sorted j = None ->
  (List.length (sliceLoop d img sorted i count) < count)%nat.
Proof.
  revert i. induction count as [| count IH]; intros i Hj Hnone; [lia |].
  cbn [sliceLoop].
  destruct (Nat.eq_dec j i) as [-> | Hne].
  - rewrite Hnone. pose proof (sliceLoop_length d img sorted count (S i)). lia.
  - assert (H : (List.length (sliceLoop d img sorted (S i) count) < count)%nat)
      by (apply IH; [lia | assumption]).
    destruct (sliceAt d img sorted i); cbn [List.length]; lia.
Qed.

(** C6.  In a pass that reaches the loop (image complete, context there)
    over three real cuts, a pair of consecutive sorted boundaries with
    [sizeFrac = B[i+1] - B[i] <= 0] takes the [continue]: the pass still
    runs to its end and tells the user nothing, no result carries the
    index [i], fewer than 4 results are exposed, and on an image with
    [W, H > 0] every pair [j] with a positive size still gets its result. *)
Theorem degenerate_segment_skipped
  (env : Env) (st : State) (img : HTMLImageElement) (i : nat) :
  imageRef env = Some img -> context2d env = true -> complete img = true ->
  allFinite (cuts st) = true -> List.length (cuts st) = 3%nat -> (i < 4)%nat ->
  le (sub (get (sortedCuts (cuts st)) (i + 1)) (get (sortedCuts (cuts st)) i))
     (Fin 0) = true ->
  fst (generateSlices env st) = Completed
  /\ alerts (snd (generateSlices env st)) = alerts st
  /\ (forall r, In r (results (snd (generateSlices env st))) -> id r <> i)
  /\ (List.length (results (snd (generateSlices env st))) < 4)%nat
  /\ (forall j, (j < 4)%nat ->
        lt (Fin 0) (sub (get (sortedCuts (cuts st)) (j + 1))
                        (get (sortedCuts (cuts st)) j)) = true ->
        (0 < naturalWidth img)%N -> (0 < naturalHeight img)%N ->
        exists r, In r (results (snd (generateSlices env st))) /\ id r = j).
Proof.
  intros Himg Hctx Hc Hfin Hlen Hi Hdeg.
  destruct (generateSlices_completed env st img Himg Hctx Hc)
    as (Hp & Hr & _ & _ & Hal).
  rewrite Hr. unfold newResults.
  pose proof (sortedCuts_sorted (cuts st) Hfin) as Hs.
  pose proof (sortedCuts_length (cuts st)) as HL. rewrite Hlen in HL.
  set (B := sortedCuts (cuts st)) in *. rewrite HL. cbn [Nat.add Nat.sub].
  destruct (sorted_get B i Hs) as (a & b & Ha & Hb & Hab); [lia |].
  rewrite Ha, Hb, sub_Fin in Hdeg. apply le_Fin in Hdeg.
  pose proof (sliceAt_degenerate (direction st) img B i a b Ha Hb Hdeg) as Hnone.
  split; [exact Hp |]. split; [exact Hal |]. split; [| split].
  - intros r Hin Hid. apply sliceLoop_In in Hin. destruct Hin as (j & Hj & Hsome).
    destruct (sliceAt_Some _ _ _ _ _ Hsome) as (Hidj & _). congruence.
  - apply (sliceLoop_length_skip _ _ _ _ _ i); [lia | exact Hnone].
  - intros j Hj Hpos HW HH.
    destruct (sorted_get B j Hs) as (a' & b' & Ha' & Hb' & Hab'); [lia |].
    rewrite Ha', Hb', sub_Fin in Hpos. apply lt_Fin in Hpos.
    destruct (sliceAt_positive (direction st) img B j a' b' Ha' Hb') as (r & Hsome & Hid & _);
      [qc_lra | assumption | assumption |].
    exists r. split; [| exact Hid].
    apply sliceLoop_In. exists j. split; [lia | exact Hsome].
Qed.

Lemma degenerate_segment_skipped_witness :
  fst (generateSlices readyEnv coincidingState) = Completed
  /\ map id (results (snd (generateSlices readyEnv coincidingState)))
     = [0; 2; 3]%nat.
Proof.
  destruct (degenerate_segment_skipped readyEnv coincidingState image400x200 1)
    as (Hp & _); try reflexivity; [lia |].
  split; [exact Hp | reflexivity].
Defined.

(** *** Tiling *)

Lemma boundary_Fin (l : list number) (i : nat) (q : Qc) :
  get l i = Fin q -> boundary l i = q.
Proof. unfold boundary. intros ->. reflexivity. Qed.

(** The loop over a sorted array, on an image with [W, H > 0], paves the
    axis between the first and the last boundary it visits. *)
Lemma sliceLoop_tiles (d : SplitDirection) (img : HTMLImageElement)
      (B : list number) (count i : nat) :
  sorted B -> (i + count < List.length B)%nat ->
  (0 < naturalWidth img)%N -> (0 < naturalHeight img)%N ->
  Tiles d (axisLengthQ d img * boundary B i)
          (axisLengthQ d img * boundary B (i + count))
          (sliceLoop d img B i count).
Proof.
  intros Hs Hlen HW HH. revert i Hlen.
  induction count as [| count IH]; intros i Hlen.
  - rewrite Nat.add_0_r. constructor.
  - cbn [sliceLoop].
    destruct (sorted_get B i Hs) as (a & b & Ha & Hb & Hab); [lia |].
    specialize (IH (S i)).
    replace (S i + count)%nat with (i + S count)%nat in IH by lia.
    rewrite (boundary_Fin B i a Ha).
    replace (S i) with (i + 1)%nat in IH by lia.
    rewrite (boundary_Fin B (i + 1) b Hb) in IH.
    replace (i + 1)%nat with (S i) in IH by lia.
    destruct (Qc_eq_dec a b) as [-> | Hne].
    + rewrite (sliceAt_degenerate d img B i b b Ha Hb) by qc_lra.
      apply IH. lia.
    + assert (Hlt : a < b).
      { destruct (Qccompare_cases a b) as [E | E | E]; auto.
        - contradiction.
        - exfalso. revert Hab E. qc_lra. }
      destruct (sliceAt_positive d img B i a b Ha Hb Hlt HW HH)
        as (r & -> & _ & Hstart & Hext).
      pose proof (axisLengthQ_pos d img HW HH) as HL.
      apply (Tiles_cons d _ (axisLengthQ d img * b)).
      * exact Hstart.
      * rewrite Hext. f_equal. ring.
      * generalize dependent (axisLengthQ d img). qc_nra.
      * apply IH. lia.
Qed.

Lemma Tiles_le (d : SplitDirection) (lo hi : Qc) (rs : list SplitResult) :
  Tiles d lo hi rs -> lo <= hi.
Proof.
  induction 1 as [lo | lo mid hi r rs Hs He Hlt Ht IH].
  - apply Qcle_refl.
  - qc_lra.
Qed.

Lemma Tiles_total (d : SplitDirection) (lo hi : Qc) (rs : list SplitResult) :
  Tiles d lo hi rs -> total d rs = Fin (hi - lo).
Proof.
  induction 1 as [lo | lo mid hi r rs Hs He Hlt Ht IH]; cbn [total fold_right].
  - f_equal. ring.
  - fold (total d rs). rewrite IH, He. cbn [add]. f_equal. ring.
Qed.

Lemma Tiles_empty (d : SplitDirection) (lo hi : Qc) :
  Tiles d lo hi [] -> lo = hi.
Proof. intros Ht. inversion Ht. reflexivity. Qed.

(** Every rectangle of a tiling spans a non-empty interval [[a, b]] inside
    [[lo, hi]], and what comes after it tiles [[b, hi]]. *)
Lemma Tiles_span (d : SplitDirection) (lo hi : Qc) (rs : list SplitResult) :
  Tiles d lo hi rs ->
  forall i r, nth_error rs i = Some r ->
  exists a b : Qc,
    start d (drawn r) = Fin a /\ extent d (drawn r) = Fin (b - a)
    /\ stop d (drawn r) = Fin b
    /\ lo <= a /\ a < b /\ b <= hi
    /\ (i = 0%nat -> a = lo)
    /\ Tiles d b hi (skipn (S i) rs).
Proof.
  induction 1 as [lo | lo mid hi r0 rs Hs He Hlt Ht IH]; intros i r Hnth.
  - destruct i; discriminate.
  - destruct i as [| i].
    + injection Hnth as <-. exists lo, mid.
      pose proof (Tiles_le d mid hi rs Ht).
      repeat split; auto.
      * unfold stop. rewrite Hs, He. cbn [add]. f_equal. ring.
      * apply Qcle_refl.
    + destruct (IH i r Hnth) as (a & b & H1 & H2 & H3 & H4 & H5 & H6 & _ & H7).
      exists a, b. repeat split; auto; [qc_lra | lia].
Qed.

Lemma newResults_tiles (d : SplitDirection) (c0 c1 c2 : Qc) (img : HTMLImageElement) :
  0 <= c0 -> c0 <= c1 -> c1 <= c2 -> c2 <= 1 ->
  (0 < naturalWidth img)%N -> (0 < naturalHeight img)%N ->
  Tiles d 0 (axisLengthQ d img) (newResults d [Fin c0; Fin c1; Fin c2] img).
Proof.
  intros H0 H1 H2 H3 HW HH. unfold newResults.
  rewrite (sortedCuts_ordered c0 c1 c2 H0 H1 H2 H3).
  cbn [List.length Nat.sub].
  pose proof (sliceLoop_tiles d img [Fin 0; Fin c0; Fin c1; Fin c2; Fin 1] 4 0) as Ht.
  cbn [boundary get nth Nat.add] in Ht.
  rewrite Qcmult_0_r, Qcmult_1_r in Ht.
  apply Ht; try assumption.
  - repeat constructor; assumption.
  - simpl. lia.
Qed.

(** C3.  For either axis, three cuts with [0 <= cut[0] <= cut[1] <= cut[2]
    <= 1] (so that 0, the cuts and 1 are already in order) and an image
    with [W, H > 0], the rectangles produced tile the axis exactly: the
    first starts at 0, each next one starts where the one before stops,
    the last stops at [W] (columns) or [H] (rows), every extent is
    positive and no two spans overlap, and the extents add up to [W] or
    [H].  With strictly increasing cuts inside (0,1) there are exactly the
    four results 0, 1, 2, 3. *)
Theorem slices_tile_axis (d : SplitDirection) (c0 c1 c2 : Qc) (img : HTMLImageElement) :
  0 <= c0 -> c0 <= c1 -> c1 <= c2 -> c2 <= 1 ->
  (0 < naturalWidth img)%N -> (0 < naturalHeight img)%N ->
  (exists r, nth_error (newResults d [Fin c0; Fin c1; Fin c2] img) 0 = Some r
             /\ start d (drawn r) = Fin 0)
  /\ (forall i r r',
        nth_error (newResults d [Fin c0; Fin c1; Fin c2] img) i = Some r ->
        nth_error (newResults d [Fin c0; Fin c1; Fin c2] img) (S i) = Some r' ->
        start d (drawn r') = stop d (drawn r))
  /\ (forall i r,
        nth_error (newResults d [Fin c0; Fin c1; Fin c2] img) i = Some r ->
        nth_error (newResults d [Fin c0; Fin c1; Fin c2] img) (S i) = None ->
        stop d (drawn r) = axisLength d img)
  /\ (forall r, In r (newResults d [Fin c0; Fin c1; Fin c2] img) ->
        lt (Fin 0) (extent d (drawn r)) = true)
  /\ (forall i j r r', (i < j)%nat ->
        nth_error (newResults d [Fin c0; Fin c1; Fin c2] img) i = Some r ->
        nth_error (newResults d [Fin c0; Fin c1; Fin c2] img) j = Some r' ->
        le (stop d (drawn r)) (start d (drawn r')) = true)
  /\ total d (newResults d [Fin c0; Fin c1; Fin c2] img) = axisLength d img
  /\ (0 < c0 -> c0 < c1 -> c1 < c2 -> c2 < 1 ->
      map id (newResults d [Fin c0; Fin c1; Fin c2] img) = [0; 1; 2; 3]%nat).
Proof.
  intros H0 H1 H2 H3 HW HH.
  pose proof (newResults_tiles d c0 c1 c2 img H0 H1 H2 H3 HW HH) as Ht.
  pose proof (axisLengthQ_pos d img HW HH) as HL.
  rewrite axisLength_Fin.
  set (rs := newResults d [Fin c0; Fin c1; Fin c2] img) in *.
  split; [| split; [| split; [| split; [| split; [| split]]]]].
  - destruct rs as [| r rs'] eqn:E.
    + apply Tiles_empty in Ht. rewrite <- Ht in HL. exfalso. revert HL. qc_lra.
    + exists r. split; [reflexivity |].
      destruct (Tiles_span d _ _ _ Ht 0 r eq_refl) as (a & b & Hs & _ & _ & _ & _ & _ & Ha & _).
      rewrite Hs, (Ha eq_refl). reflexivity.
  - intros i r r' Hi Hi'.
    destruct (Tiles_span d _ _ _ Ht i r Hi) as (a & b & _ & _ & Hstop & _ & _ & _ & _ & Hrest).
    assert (Hn : nth_error (skipn (S i) rs) 0 = Some r').
    { rewrite nth_error_skipn, Nat.add_0_r. exact Hi'. }
    destruct (Tiles_span d _ _ _ Hrest 0 r' Hn) as (a' & b' & Hs' & _ & _ & _ & _ & _ & Ha' & _).
    rewrite Hs', Hstop, (Ha' eq_refl). reflexivity.
  - intros i r Hi Hnone.
    destruct (Tiles_span d _ _ _ Ht i r Hi) as (a & b & _ & _ & Hstop & _ & _ & _ & _ & Hrest).
    assert (Hnil : skipn (S i) rs = []).
    { apply skipn_all2. apply nth_error_None. exact Hnone. }
    rewrite Hnil in Hrest. apply Tiles_empty in Hrest.
    rewrite Hstop, Hrest. reflexivity.
  - intros r Hin. apply In_nth_error in Hin. destruct Hin as (i & Hi).
    destruct (Tiles_span d _ _ _ Ht i r Hi) as (a & b & _ & Hext & _ & _ & Hab & _).
    rewrite Hext. apply lt_Fin. revert Hab. qc_lra.
  - intros i j r r' Hij Hi Hj.
    destruct (Tiles_span d _ _ _ Ht i r Hi) as (a & b & _ & _ & Hstop & _ & _ & _ & _ & Hrest).
    assert (Hn : nth_error (skipn (S i) rs) (j - S i) = Some r').
    { rewrite nth_error_skipn. replace (S i + (j - S i))%nat with j by lia. exact Hj. }
    destruct (Tiles_span d _ _ _ Hrest _ r' Hn) as (a' & b' & Hs' & _ & _ & Hle & _).
    rewrite Hstop, Hs'. apply le_Fin. exact Hle.
  - rewrite (Tiles_total d _ _ _ Ht). f_equal. ring.
  - intros S0 S1 S2 S3. subst rs. unfold newResults.
    rewrite (sortedCuts_ordered c0 c1 c2 H0 H1 H2 H3).
    cbn [List.length Nat.sub sliceLoop].
    set (B := [Fin 0; Fin c0; Fin c1; Fin c2; Fin 1]).
    destruct (sliceAt_positive d img B 0 0 c0 eq_refl eq_refl S0 HW HH) as (r0 & -> & I0 & _).
    destruct (sliceAt_positive d img B 1 c0 c1 eq_refl eq_refl S1 HW HH) as (r1 & -> & I1 & _).
    destruct (sliceAt_positive d img B 2 c1 c2 eq_refl eq_refl S2 HW HH) as (r2 & -> & I2 & _).
    destruct (sliceAt_positive d img B 3 c2 1 eq_refl eq_refl S3 HW HH) as (r3 & -> & I3 & _).
    cbn [map]. rewrite I0, I1, I2, I3. reflexivity.
Qed.

Lemma slices_tile_axis_witness :
  total VERTICAL (newResults VERTICAL initialCuts image400x200) = of_Z 400
  /\ total HORIZONTAL (newResults HORIZONTAL initialCuts image400x200) = of_Z 200.
Proof.
  split.
  - apply (slices_tile_axis VERTICAL (Q2Qc 0.25) (Q2Qc 0.50) (Q2Qc 0.75) image400x200);
      vm_compute; congruence.
  - apply (slices_tile_axis HORIZONTAL (Q2Qc 0.25) (Q2Qc 0.50) (Q2Qc 0.75) image400x200);
      vm_compute; congruence.
Defined.

(* ================================================================== *)
(** ** The pointer move *)
(* ================================================================== *)

Lemma isFinite_Fin (x : number) : isFinite x = true -> exists q, x = Fin q.
Proof. destruct x; try discriminate. eauto. Qed.

(** Without rounding, the quotient of a real by a positive real is a
    real. *)
Lemma div_positive (o s : Qc) : 0 < s -> div (Fin o) (Fin s) = Fin (o / s).
Proof.
  intros Hs. cbn [div].
  destruct (Qccompare_cases s 0) as [E | E | E]; try reflexivity.
  subst. exfalso. revert Hs. qc_lra.
Qed.

Lemma pointerPct_div (d : SplitDirection) (rect : DOMRect.t) (clientX clientY : number) :
  pointerPct d rect clientX clientY
  = B64.div (pointerOffset d rect clientX clientY) (containerSize d rect).
Proof. destruct d; reflexivity. Qed.

(** The offset of a real pointer from a real rectangle is a number: a
    real, or an infinity when the difference overflows. *)
Lemma pointerOffset_defined (d : SplitDirection) (rect : DOMRect.t) (x y : Qc) :
  finiteRect rect = true -> pointerOffset d rect (Fin x) (Fin y) <> NaN.
Proof.
  unfold finiteRect. rewrite !andb_true_iff. intros [[[Hl Ht] _] _].
  apply isFinite_Fin in Hl, Ht. destruct Hl as [l Hl], Ht as [t Ht].
  destruct d; cbn [pointerOffset]; rewrite ?Hl, ?Ht; apply round64_defined.
Qed.

Lemma containerSize_Fin (d : SplitDirection) (rect : DOMRect.t) :
  finiteRect rect = true -> exists s, containerSize d rect = Fin s.
Proof.
  unfold finiteRect. rewrite !andb_true_iff. intros [[[_ _] Hw] Hh].
  destruct d; cbn [containerSize]; apply isFinite_Fin; assumption.
Qed.

(** The quotient of a number by a real is [NaN] exactly for 0/0. *)
Lemma div_NaN_iff (o : number) (s : Qc) :
  o <> NaN -> (B64.div o (Fin s) = NaN <-> s = 0 /\ o = Fin 0).
Proof.
  intros Ho. destruct o as [a | | |]; [| | | congruence].
  - cbn [B64.div div].
    destruct (Qccompare_cases s 0) as [Hs | Hs | Hs].
    + destruct (Qccompare_cases a 0) as [Ha | Ha | Ha].
      * subst. split; auto.
      * split; [discriminate |]. intros [_ E]. injection E as ->.
        exfalso. revert Ha. qc_lra.
      * split; [discriminate |]. intros [_ E]. injection E as ->.
        exfalso. revert Ha. qc_lra.
    + split; [intros E; destruct (round64_defined _ E) |].
      intros [-> _]. exfalso. revert Hs. qc_lra.
    + split; [intros E; destruct (round64_defined _ E) |].
      intros [-> _]. exfalso. revert Hs. qc_lra.
  - cbn [B64.div div]. split; [| intros [_ E]; discriminate].
    destruct (s ?= 0); discriminate.
  - cbn [B64.div div]. split; [| intros [_ E]; discriminate].
    destruct (s ?= 0); discriminate.
Qed.

Lemma defined_None (x : number) : defined x = None <-> x = NaN.
Proof. destruct x; cbn; split; congruence. Qed.

Lemma handleMove_active (env : Env) (st : State) (index : nat) (rect : DOMRect.t)
      (clientX clientY : number) :
  activeDragIndex st = Some index -> containerRef env = Some rect ->
  handleMove env clientX clientY st
  = setCuts (setCut index (pointerPct (direction st) rect clientX clientY) (cuts st)) st.
Proof. intros Ha Hr. unfold handleMove. rewrite Ha, Hr. reflexivity. Qed.

(** C10, as stated, fails: with a container of width 0 and the pointer
    290 pixels to the right of its left edge the quotient is [Infinity],
    not an undefined 0/0, the clamp turns it into the upper limit of the
    dragged cut, and the CutSet left behind satisfies the gap invariant. *)
Lemma handleMove_zero_width_repaired :
  containerRef collapsedEnv
  = Some (DOMRect.make (of_Z 10) (of_Z 20) (of_Z 0) (of_Z 0))
  /\ pointerPct VERTICAL (DOMRect.make (of_Z 10) (of_Z 20) (of_Z 0) (of_Z 0))
                (of_Z 300) (of_Z 50) = PosInf
  /\ cuts (handleMove collapsedEnv (of_Z 300) (of_Z 50)
             (handleDragStart 1 initialState))
     = [quarter; B64.of_Q 0.7; threeQuarters]
  /\ gapInvariant (cuts (handleMove collapsedEnv (of_Z 300) (of_Z 50)
                           (handleDragStart 1 initialState))) = true.
Proof.
  split; [reflexivity |]. split; [vm_compute; reflexivity |].
  split; [| vm_compute; reflexivity].
  apply (all2_eq number_eqb number_eqb_eq). vm_compute. reflexivity.
Qed.

(** C10, amended.  [handleMove] divides the pointer offset by the width
    (columns) or the height (rows) of the container with no guard.  During
    a drag of cut 0, 1 or 2 on a valid CutSet of doubles, with real pointer
    coordinates and a real container rectangle:
    - the quotient is undefined ([NaN], the [None] of the guarded view)
      exactly when that side and the pointer offset are both 0; with a
      positive side the guarded view never takes its [None] branch;
    - whenever the quotient is defined, be it a real or an infinity (a
      side of 0 under any other offset), the move stores a real between
      the two limits of the cut, changes only [cut[index]] and leaves the
      gap invariant standing up to one rounding;
    - when it is undefined, the clamp passes [NaN] on, [NaN] is stored in
      [cut[index]] and the gap invariant is lost. *)
Theorem handleMove_unguarded_division
  (env : Env) (st : State) (index : nat) (rect : DOMRect.t) (x y : Qc) :
  activeDragIndex st = Some index -> (index <= 2)%nat ->
  gapInvariant (cuts st) = true -> allDoubles (cuts st) = true ->
  containerRef env = Some rect -> finiteRect rect = true ->
  (defined (pointerPct (direction st) rect (Fin x) (Fin y)) = None
   <-> containerSize (direction st) rect = Fin 0
       /\ pointerOffset (direction st) rect (Fin x) (Fin y) = Fin 0)
  /\ (lt (Fin 0) (containerSize (direction st) rect) = true ->
      defined (pointerPct (direction st) rect (Fin x) (Fin y))
      = Some (pointerPct (direction st) rect (Fin x) (Fin y)))
  /\ (defined (pointerPct (direction st) rect (Fin x) (Fin y)) <> None ->
      nearGapInvariant (cuts (handleMove env (Fin x) (Fin y) st)) = true
      /\ (forall j, j <> index ->
            nth_error (cuts (handleMove env (Fin x) (Fin y) st)) j
            = nth_error (cuts st) j)
      /\ (exists lo hi v : Qc,
            prevLimit (cuts st) index = Fin lo
            /\ nextLimit (cuts st) index = Fin hi
            /\ nth_error (cuts (handleMove env (Fin x) (Fin y) st)) index
               = Some (Fin v)
            /\ lo <= v /\ v <= hi))
  /\ (defined (pointerPct (direction st) rect (Fin x) (Fin y)) = None ->
      nth_error (cuts (handleMove env (Fin x) (Fin y) st)) index = Some NaN
      /\ gapInvariant (cuts (handleMove env (Fin x) (Fin y) st)) = false
      /\ nearGapInvariant (cuts (handleMove env (Fin x) (Fin y) st)) = false).
Proof.
  intros Hact Hidx Hinv Hdbl Hrect Hfin.
  rewrite (handleMove_active env st index rect _ _ Hact Hrect).
  cbn [cuts setCuts]. rewrite pointerPct_div.
  pose proof (pointerOffset_defined (direction st) rect x y Hfin) as Ho.
  destruct (containerSize_Fin (direction st) rect Hfin) as [s Hs]. rewrite Hs.
  set (o := pointerOffset (direction st) rect (Fin x) (Fin y)) in *.
  pose proof (div_NaN_iff o s Ho) as Hnan.
  assert (Hlen : List.length (cuts st) = 3%nat).
  { destruct (gapInvariant_inv _ Hinv) as (c0 & c1 & c2 & -> & _). reflexivity. }
  split; [| split; [| split]].
  - rewrite defined_None, Hnan. split.
    + intros [-> E]. auto.
    + intros [E1 E2]. injection E1 as ->. auto.
  - intros Hpos. apply lt_Fin in Hpos.
    destruct (B64.div o (Fin s)) eqn:E; try reflexivity.
    destruct (proj1 Hnan eq_refl) as [-> _]. exfalso. revert Hpos. qc_lra.
  - intros Hdef.
    assert (Hq : B64.div o (Fin s) <> NaN).
    { intros E. apply Hdef, defined_None, E. }
    destruct (setCut_clamped (cuts st) index (B64.div o (Fin s)) Hinv Hdbl Hidx Hq)
      as (lo & hi & v & H1 & H2 & _ & _ & H5 & H6 & H7 & H8 & _ & H10).
    split; [exact H10 |]. split; [exact H8 |].
    exists lo, hi, v. auto.
  - intros Hundef. apply defined_None in Hundef. rewrite Hundef.
    unfold setCut. rewrite clampPct_NaN.
    split; [apply set_same |]. apply set_NaN_invalid. lia.
Qed.

Lemma handleMove_unguarded_division_witness :
  nearGapInvariant (cuts (handleMove readyEnv (of_Z 130) (of_Z 50)
                            (handleDragStart 1 initialState))) = true
  /\ nth_error (cuts (handleMove collapsedEnv (of_Z 10) (of_Z 50)
                        (handleDragStart 1 initialState))) 1 = Some NaN.
Proof.
  split.
  - destruct (handleMove_unguarded_division readyEnv
                (handleDragStart 1 initialState) 1
                (DOMRect.make (of_Z 10) (of_Z 20) (of_Z 400) (of_Z 200))
                (Q2Qc (inject_Z 130)) (Q2Qc (inject_Z 50))
                eq_refl (le_S 1 1 (le_n 1)) eq_refl eq_refl eq_refl eq_refl)
      as (_ & Hpos & Hdef & _).
    apply Hdef. rewrite Hpos; [discriminate | reflexivity].
  - destruct (handleMove_unguarded_division collapsedEnv
                (handleDragStart 1 initialState) 1
                (DOMRect.make (of_Z 10) (of_Z 20) (of_Z 0) (of_Z 0))
                (Q2Qc (inject_Z 10)) (Q2Qc (inject_Z 50))
                eq_refl (le_S 1 1 (le_n 1)) eq_refl eq_refl eq_refl eq_refl)
      as (Hiff & _ & _ & Hundef).
    apply Hundef, Hiff. split; [reflexivity |].
    apply number_eqb_eq. vm_compute. reflexivity.
Defined.

(* ================================================================== *)
(** ** More on the clamp-and-store *)
(* ================================================================== *)

Lemma get_nth_error (a : list number) (i : nat) (v : number) :
  nth_error a i = Some v -> get a i = v.
Proof. intros H. unfold get. apply nth_error_nth, H. Qed.

Lemma get_set_other (a : list number) (i j : nat) (v : number) :
  j <> i -> (i < List.length a)%nat -> get (JS.set a i v) j = get a j.
Proof.
  intros Hne Hlt. unfold get.
  pose proof (set_other a i j v Hne Hlt) as H.
  destruct (nth_error a j) as [x |] eqn:E.
  - rewrite (nth_error_nth _ _ _ H), (nth_error_nth _ _ _ E). reflexivity.
  - apply nth_error_None in E. apply nth_error_None in H.
    rewrite !nth_overflow; auto.
Qed.

Lemma set_set (a : list number) (i : nat) (u v : number) :
  (i < List.length a)%nat -> JS.set (JS.set a i u) i v = JS.set a i v.
Proof.
  revert i. induction a as [| x a IH]; intros i Hlt; simpl in Hlt; [lia |].
  destruct i; cbn [JS.set]; [reflexivity |]. rewrite IH; [reflexivity | lia].
Qed.

Lemma limits_set (a : list number) (i : nat) (u : number) :
  (i < List.length a)%nat ->
  prevLimit (JS.set a i u) i = prevLimit a i
  /\ nextLimit (JS.set a i u) i = nextLimit a i.
Proof.
  intros Hlt. unfold prevLimit, nextLimit.
  rewrite (set_length a i u Hlt). split.
  - destruct (0 <? i)%nat eqn:E; [| reflexivity].
    apply Nat.ltb_lt in E. rewrite get_set_other; [reflexivity | lia | assumption].
  - destruct (i <? List.length a - 1)%nat; [| reflexivity].
    rewrite get_set_other; [reflexivity | lia | assumption].
Qed.

(** X1.  The limits of a cut do not read the cut itself, so on one cut the last
    store wins: a move to [u] followed by a move to [v] leaves what the move
    to [v] alone leaves, for any numbers and any array the index fits in. *)
Theorem setCut_last_wins (cs : list number) (index : nat) (u v : number) :
  (index < List.length cs)%nat ->
  setCut index v (setCut index u cs) = setCut index v cs.
Proof.
  intros Hlt. unfold setCut at 1 3. unfold clampPct.
  unfold setCut.
  destruct (limits_set cs index (clampPct cs index u) Hlt) as [-> ->].
  apply set_set, Hlt.
Qed.

Lemma setCut_last_wins_witness :
  setCut 1 half (setCut 1 (of_Q 0.9) initialCuts) = setCut 1 half initialCuts.
Proof. apply (setCut_last_wins initialCuts 1). simpl. lia. Defined.

(** X2.  What the clamp does, on any array whose two limits for the index
    are reals.  [NaN] comes out as [NaN].  Any other raw value comes out
    as a real that is at least the lower limit.  With the limits in the
    right order that real is at most the upper limit, and a real raw value
    comes out as the lower limit when it is at or below it, as the upper
    limit when it is at or above it, and as itself in between.  With the
    limits in the wrong order the lower limit comes out, whatever the raw
    value. *)
Theorem clampPct_cases (cs : list number) (index : nat) (lo hi : Qc) :
  prevLimit cs index = Fin lo -> nextLimit cs index = Fin hi ->
  clampPct cs index NaN = NaN
  /\ (forall raw, raw <> NaN ->
        exists v, clampPct cs index raw = Fin v /\ lo <= v
                  /\ (lo <= hi -> v <= hi) /\ (hi < lo -> v = lo))
  /\ (lo <= hi -> forall r : Qc,
        (r <= lo -> clampPct cs index (Fin r) = Fin lo)
        /\ (hi <= r -> clampPct cs index (Fin r) = Fin hi)
        /\ (lo <= r -> r <= hi -> clampPct cs index (Fin r) = Fin r)).
Proof.
  intros Hlo Hhi. split; [apply clampPct_NaN |].
  unfold clampPct. rewrite Hlo, Hhi. split.
  - intros raw Hraw.
    destruct (Qclt_le_dec hi lo) as [Hinv | Hle].
    + exists lo. split; [| split; [apply Qcle_refl | split; [| reflexivity]]].
      * destruct raw as [q | | |]; [| | | congruence].
        -- rewrite min_Fin, max_Fin.
           destruct (le (Fin q) (Fin hi)) eqn:E1.
           ++ apply le_Fin in E1.
              assert (E2 : le (Fin lo) (Fin q) = false)
                by (apply le_Fin_false; revert Hinv E1; qc_lra).
              rewrite E2. reflexivity.
           ++ assert (E2 : le (Fin lo) (Fin hi) = false)
                by (apply le_Fin_false; exact Hinv).
              rewrite E2. reflexivity.
        -- change (JS.min PosInf (Fin hi)) with (Fin hi). rewrite max_Fin.
           assert (E2 : le (Fin lo) (Fin hi) = false)
             by (apply le_Fin_false; exact Hinv).
           rewrite E2. reflexivity.
        -- reflexivity.
      * intros Hle. exfalso. revert Hinv Hle. qc_lra.
    + destruct (clamp_number lo hi raw Hle Hraw) as (v & Hv & Hv1 & Hv2).
      exists v. split; [exact Hv |]. split; [exact Hv1 |]. split; [auto |].
      intros Hinv. exfalso. revert Hinv Hle. qc_lra.
  - intros Hle r. rewrite min_Fin, max_Fin. split; [| split].
    + intros Hr.
      destruct (le (Fin r) (Fin hi)) eqn:E1.
      * destruct (le (Fin lo) (Fin r)) eqn:E2; [| reflexivity].
        apply le_Fin in E2. f_equal. apply Qcle_antisym; assumption.
      * apply le_Fin_false in E1. exfalso. revert Hr Hle E1. qc_lra.
    + intros Hr.
      destruct (le (Fin r) (Fin hi)) eqn:E1.
      * apply le_Fin in E1.
        assert (r = hi) by (apply Qcle_antisym; assumption). subst r.
        rewrite (proj2 (le_Fin lo hi) Hle). reflexivity.
      * rewrite (proj2 (le_Fin lo hi) Hle). reflexivity.
    + intros H1 H2.
      rewrite (proj2 (le_Fin r hi) H2), (proj2 (le_Fin lo r) H1). reflexivity.
Qed.

(** The four drags of [fourDrags] lead to [tightCuts]; there the limits
    of cut 1 are 0.12 and 0.11999999999999998, in the wrong order, and a
    move of cut 1 to the far right stores the lower one. *)
Lemma clampPct_cases_witness :
  cuts (run fourDrags initialState) = tightCuts
  /\ prevLimit tightCuts 1 = B64.of_Q 0.12
  /\ nextLimit tightCuts 1 = B64.of_Q 0.11999999999999998
  /\ exists v, clampPct tightCuts 1 PosInf = Fin v
               /\ Fin v = B64.of_Q 0.12.
Proof.
  assert (E1 : prevLimit tightCuts 1 = B64.of_Q 0.12)
    by (apply number_eqb_eq; vm_compute; reflexivity).
  assert (E2 : nextLimit tightCuts 1 = B64.of_Q 0.11999999999999998)
    by (apply number_eqb_eq; vm_compute; reflexivity).
  split; [apply (all2_eq number_eqb number_eqb_eq); vm_compute; reflexivity |].
  split; [exact E1 |]. split; [exact E2 |].
  assert (F1 : B64.of_Q 0.12 = Fin (Q2Qc (1080863910568919 # 9007199254740992)))
    by (apply number_eqb_eq; vm_compute; reflexivity).
  assert (F2 : B64.of_Q 0.11999999999999998
               = Fin (Q2Qc (8646911284551351 # 72057594037927936)))
    by (apply number_eqb_eq; vm_compute; reflexivity).
  rewrite F1 in E1. rewrite F2 in E2.
  destruct (clampPct_cases tightCuts 1 _ _ E1 E2) as (_ & H & _).
  destruct (H PosInf) as (v & Hv & _ & _ & Hinv); [discriminate |].
  exists v. split; [exact Hv |]. rewrite F1, Hinv; [reflexivity |].
  vm_compute. reflexivity.
Defined.

(* ================================================================== *)
(** ** The pass and the session *)
(* ================================================================== *)

(** Whatever the page, a pass leaves the cuts, the axis, the drag session
    and the messages alone; unless it runs to the end it leaves the exposed
    results alone too; and the processing flag is down after a pass that
    ran to the end or aborted, up after one that is suspended. *)
Lemma generateSlices_frame (env : Env) (st : State) :
  cuts (snd (generateSlices env st)) = cuts st
  /\ direction (snd (generateSlices env st)) = direction st
  /\ activeDragIndex (snd (generateSlices env st)) = activeDragIndex st
  /\ alerts (snd (generateSlices env st)) = alerts st
  /\ (fst (generateSlices env st) <> Completed ->
      results (snd (generateSlices env st)) = results st)
  /\ (fst (generateSlices env st) = Completed
      \/ fst (generateSlices env st) = Aborted ->
      isProcessing (snd (generateSlices env st)) = false)
  /\ (fst (generateSlices env st) = Suspended ->
      isProcessing (snd (generateSlices env st)) = true)
  /\ (fst (generateSlices env st) = Skipped -> snd (generateSlices env st) = st).
Proof.
  unfold generateSlices.
  destruct (imageRef env) as [img |];
    [destruct (context2d env); [destruct (complete img) |] |];
    cbn [negb fst snd]; repeat split; intros;
    try reflexivity; try discriminate; try congruence;
    match goal with H : _ \/ _ |- _ => destruct H; discriminate end.
Qed.

(** X5.  Whatever the page, a pass leaves the cuts, the axis, the drag session
    and the messages as they are; unless it runs to the end the exposed
    results stay too; the processing flag is down after a pass that ran to
    the end or aborted and up while it waits for the image; without an
    image element the pass changes nothing. *)
Theorem generateSlices_touches_only_results_and_flag (env : Env) (st : State) :
  cuts (snd (generateSlices env st)) = cuts st
  /\ direction (snd (generateSlices env st)) = direction st
  /\ activeDragIndex (snd (generateSlices env st)) = activeDragIndex st
  /\ alerts (snd (generateSlices env st)) = alerts st
  /\ (fst (generateSlices env st) <> Completed ->
      results (snd (generateSlices env st)) = results st)
  /\ (fst (generateSlices env st) = Completed
      \/ fst (generateSlices env st) = Aborted ->
      isProcessing (snd (generateSlices env st)) = false)
  /\ (fst (generateSlices env st) = Suspended ->
      isProcessing (snd (generateSlices env st)) = true)
  /\ (fst (generateSlices env st) = Skipped -> snd (generateSlices env st) = st).
Proof. exact (generateSlices_frame env st). Qed.

Lemma mapi_nth_error {A B : Type} (f : A -> nat -> B) (l : list A) (k i : nat) :
  nth_error (mapi f k l) i = option_map (fun x => f x (k + i)%nat) (nth_error l i).
Proof.
  revert k i. induction l as [| x l IH]; intros k i.
  - destruct i; reflexivity.
  - destruct i as [| i]; cbn [mapi nth_error option_map].
    + rewrite Nat.add_0_r. reflexivity.
    + rewrite IH. replace (S k + i)%nat with (k + S i)%nat by lia. reflexivity.
Qed.

Lemma mapi_length {A B : Type} (f : A -> nat -> B) (l : list A) (k : nat) :
  List.length (mapi f k l) = List.length l.
Proof.
  revert k. induction l as [| x l IH]; intros k; cbn [mapi List.length]; auto.
Qed.

(** The i-th line carries the index [i], and there is one exactly when
    [i] is the index of a cut. *)
Lemma lines_nth (st : State) (i : nat) (line : Line) :
  nth_error (lines st) i = Some line ->
  lineIndex line = i /\ (i < List.length (cuts st))%nat.
Proof.
  unfold lines. rewrite mapi_nth_error.
  destruct (nth_error (cuts st) i) as [cut |] eqn:E; [| discriminate].
  cbn [option_map]. intros H. injection H as <-. split; [reflexivity |].
  apply nth_error_Some. congruence.
Qed.

Lemma gapInvariant_length (cs : list number) :
  gapInvariant cs = true -> List.length cs = 3%nat.
Proof.
  intros H. destruct (gapInvariant_inv cs H) as (c0 & c1 & c2 & -> & _).
  reflexivity.
Qed.

(* ================================================================== *)
(** ** More on the sort *)
(* ================================================================== *)

Lemma insert_perm (cmp : number -> number -> number) (x : number) (l : list number) :
  Permutation (insert cmp x l) (x :: l).
Proof.
  induction l as [| y l IH]; cbn [insert]; [reflexivity |].
  destruct (lt (Fin 0) (cmp x y)); [| reflexivity].
  rewrite IH. apply perm_swap.
Qed.

Lemma sort_perm (cmp : number -> number -> number) (l : list number) :
  Permutation (JS.sort cmp l) l.
Proof.
  induction l as [| x l IH]; cbn [JS.sort]; [reflexivity |].
  rewrite insert_perm, IH. reflexivity.
Qed.

Lemma sorted_head_le (a : Qc) (l : list number) :
  sorted (Fin a :: l) ->
  forall x, In x l -> exists q, x = Fin q /\ a <= q.
Proof.
  revert a. induction l as [| y l IH]; intros a Hs x Hin; [destruct Hin |].
  inversion Hs as [| | a' b l' Hab Hs' E]; subst.
  destruct Hin as [<- | Hin].
  - exists b. auto.
  - destruct (IH b Hs' x Hin) as (q & -> & Hq).
    exists q. split; [reflexivity | qc_lra].
Qed.

Lemma sorted_Fin_head (x : number) (l : list number) :
  sorted (x :: l) -> exists a, x = Fin a.
Proof. intros Hs. inversion Hs; subst; eauto. Qed.

(** A sorted array of reals is determined by its elements. *)
Lemma sorted_unique (l l' : list number) :
  sorted l -> sorted l' -> Permutation l l' -> l = l'.
Proof.
  revert l'. induction l as [| x l IH]; intros l' Hs Hs' Hp.
  - apply Permutation_nil in Hp. congruence.
  - destruct l' as [| x' l'].
    + apply Permutation_sym, Permutation_nil in Hp. discriminate.
    + destruct (sorted_Fin_head _ _ Hs) as [a ->].
      destruct (sorted_Fin_head _ _ Hs') as [a' ->].
      assert (Haa : a <= a').
      { assert (Hin : In (Fin a') (Fin a :: l))
          by (apply (Permutation_in _ (Permutation_sym Hp)); left; reflexivity).
        destruct Hin as [E | Hin].
        - injection E as ->. apply Qcle_refl.
        - destruct (sorted_head_le a l Hs _ Hin) as (q & E & Hq).
          injection E as ->. exact Hq. }
      assert (Ha'a : a' <= a).
      { assert (Hin : In (Fin a) (Fin a' :: l'))
          by (apply (Permutation_in _ Hp); left; reflexivity).
        destruct Hin as [E | Hin].
        - injection E as ->. apply Qcle_refl.
        - destruct (sorted_head_le a' l' Hs' _ Hin) as (q & E & Hq).
          injection E as ->. exact Hq. }
      assert (a = a') by (apply Qcle_antisym; assumption). subst a'.
      f_equal. apply IH.
      * apply (sorted_tail _ _ Hs).
      * apply (sorted_tail _ _ Hs').
      * apply (Permutation_cons_inv Hp).
Qed.

Lemma allFinite_perm (l l' : list number) :
  Permutation l l' -> allFinite l = true -> allFinite l' = true.
Proof.
  intros Hp. unfold allFinite. rewrite !forallb_forall.
  intros H x Hin. apply H. apply (Permutation_in _ (Permutation_sym Hp)), Hin.
Qed.

Lemma sortedCuts_perm (cs : list number) :
  Permutation (sortedCuts cs) (Fin 0 :: cs ++ [Fin 1]).
Proof. apply sort_perm. Qed.

(** X7.  The boundaries the loop walks are the reals 0, the cuts and 1, each as
    often as it occurs, in non-decreasing order. *)
Theorem sortedCuts_sorted_permutation (cs : list number) :
  allFinite cs = true ->
  sorted (sortedCuts cs)
  /\ Permutation (sortedCuts cs) (Fin 0 :: cs ++ [Fin 1])
  /\ List.length (sortedCuts cs) = (List.length cs + 2)%nat.
Proof.
  intros Hf. split; [apply sortedCuts_sorted, Hf |].
  split; [apply sortedCuts_perm | apply sortedCuts_length].
Qed.

Lemma sortedCuts_sorted_permutation_witness :
  sorted (sortedCuts [threeQuarters; quarter; half])
  /\ sortedCuts [threeQuarters; quarter; half]
     = [Fin 0; quarter; half; threeQuarters; Fin 1].
Proof.
  split.
  - apply (sortedCuts_sorted_permutation [threeQuarters; quarter; half]).
    reflexivity.
  - apply (all2_eq number_eqb number_eqb_eq). reflexivity.
Defined.

Lemma sortedCuts_order_irrelevant (cs cs' : list number) :
  allFinite cs = true -> Permutation cs cs' ->
  sortedCuts cs = sortedCuts cs'.
Proof.
  intros Hf Hp. apply sorted_unique.
  - apply sortedCuts_sorted, Hf.
  - apply sortedCuts_sorted, (allFinite_perm cs cs' Hp Hf).
  - rewrite !sortedCuts_perm. constructor.
    apply Permutation_app_tail, Hp.
Qed.

(** X8.  The order in which the three reals sit in the [cuts] array is
    irrelevant to the pass: any rearrangement of them gives the same
    results. *)
Theorem newResults_order_irrelevant
  (d : SplitDirection) (cs cs' : list number) (img : HTMLImageElement) :
  allFinite cs = true -> Permutation cs cs' ->
  newResults d cs img = newResults d cs' img.
Proof.
  intros Hf Hp. unfold newResults.
  rewrite (sortedCuts_order_irrelevant cs cs' Hf Hp). reflexivity.
Qed.

Lemma newResults_order_irrelevant_witness :
  newResults VERTICAL [threeQuarters; quarter; half] image400x200
  = newResults VERTICAL [quarter; half; threeQuarters] image400x200.
Proof.
  apply (newResults_order_irrelevant VERTICAL
           [threeQuarters; quarter; half] [quarter; half; threeQuarters]).
  - reflexivity.
  - exact (Permutation_cons_append [quarter; half] threeQuarters).
Defined.

(* ================================================================== *)
(** ** More on the rectangles *)
(* ================================================================== *)

Lemma sliceAt_sorted_positive (d : SplitDirection) (img : HTMLImageElement)
      (B : list number) (j : nat) (r : SplitResult) :
  sorted B -> (j + 1 < List.length B)%nat -> sliceAt d img B j = Some r ->
  lt (Fin 0) (width r) = true /\ lt (Fin 0) (height r) = true
  /\ (0 < naturalWidth img)%N /\ (0 < naturalHeight img)%N.
Proof.
  intros Hs Hj Hsome.
  destruct (sorted_get B j Hs Hj) as (a & b & Ha & Hb & Hab).
  unfold sliceAt in Hsome. rewrite Ha, Hb, sub_Fin in Hsome.
  assert (HN : forall n, (0 < n)%N \/ N2Qc n = 0).
  { intros n. destruct n; [right; reflexivity | left; lia]. }
  destruct d; cbn [sliceRect sw sh] in Hsome.
  - change (mul (of_N (naturalHeight img)) (Fin (b - a)))
      with (Fin (N2Qc (naturalHeight img) * (b - a))) in Hsome.
    change (of_N (naturalWidth img)) with (Fin (N2Qc (naturalWidth img))) in Hsome.
    destruct (le (Fin (N2Qc (naturalWidth img))) (Fin 0)) eqn:E1; [discriminate |].
    destruct (le (Fin (N2Qc (naturalHeight img) * (b - a))) (Fin 0)) eqn:E2;
      [discriminate |].
    cbn [orb] in Hsome. injection Hsome as <-. cbn [width height].
    apply le_Fin_false in E1, E2.
    split; [apply lt_Fin, E1 |]. split; [apply lt_Fin, E2 |].
    split.
    + destruct (HN (naturalWidth img)) as [H | H]; [exact H |].
      rewrite H in E1. exfalso. revert E1. qc_lra.
    + destruct (HN (naturalHeight img)) as [H | H]; [exact H |].
      rewrite H in E2. exfalso. revert E2. qc_lra.
  - change (mul (of_N (naturalWidth img)) (Fin (b - a)))
      with (Fin (N2Qc (naturalWidth img) * (b - a))) in Hsome.
    change (of_N (naturalHeight img)) with (Fin (N2Qc (naturalHeight img))) in Hsome.
    destruct (le (Fin (N2Qc (naturalWidth img) * (b - a))) (Fin 0)) eqn:E1;
      [discriminate |].
    destruct (le (Fin (N2Qc (naturalHeight img))) (Fin 0)) eqn:E2; [discriminate |].
    cbn [orb] in Hsome. injection Hsome as <-. cbn [width height].
    apply le_Fin_false in E1, E2.
    split; [apply lt_Fin, E1 |]. split; [apply lt_Fin, E2 |].
    split.
    + destruct (HN (naturalWidth img)) as [H | H]; [exact H |].
      rewrite H in E1. exfalso. revert E1. qc_lra.
    + destruct (HN (naturalHeight img)) as [H | H]; [exact H |].
      rewrite H in E2. exfalso. revert E2. qc_lra.
Qed.

(** X10.  With real cuts the pass never hands out an empty picture: every
    result has a positive width and a positive height, which are the
    [sw] and [sh] of the rectangle that was drawn; and it hands out nothing
    at all for an image whose natural width or height is 0. *)
Theorem newResults_never_empty_slice
  (d : SplitDirection) (cs : list number) (img : HTMLImageElement) (r : SplitResult) :
  allFinite cs = true -> In r (newResults d cs img) ->
  lt (Fin 0) (width r) = true /\ lt (Fin 0) (height r) = true
  /\ width r = sw (drawn r) /\ height r = sh (drawn r)
  /\ (0 < naturalWidth img)%N /\ (0 < naturalHeight img)%N.
Proof.
  intros Hf Hin. unfold newResults in Hin.
  apply sliceLoop_In in Hin. destruct Hin as (j & Hj & Hsome).
  pose proof (sortedCuts_sorted cs Hf) as Hs.
  destruct (sliceAt_sorted_positive d img _ j r Hs ltac:(lia) Hsome)
    as (H1 & H2 & H3 & H4).
  destruct (sliceAt_Some d img _ j r Hsome) as (_ & _ & H5 & H6).
  auto 10.
Qed.

Lemma newResults_never_empty_slice_witness :
  lt (Fin 0) (width (slice 2 200 0 100 200)) = true.
Proof.
  apply (newResults_never_empty_slice VERTICAL initialCuts image400x200
           (slice 2 200 0 100 200) eq_refl).
  right. right. left.
  apply result_eqb_eq. reflexivity.
Defined.

Lemma increasing_cons (x : nat) (l : list nat) :
  increasing l = true -> Forall (fun y => (x < y)%nat) l -> increasing (x :: l) = true.
Proof.
  intros Hi Hall. destruct l as [| y l]; [reflexivity |].
  cbn [increasing]. inversion Hall; subst.
  rewrite (proj2 (Nat.ltb_lt x y)) by assumption. exact Hi.
Qed.

Lemma increasing_above (x : nat) (l : list nat) :
  increasing (x :: l) = true -> Forall (fun y => (x < y)%nat) l.
Proof.
  revert x. induction l as [| y l IH]; intros x H; [constructor |].
  cbn [increasing] in H. apply andb_true_iff in H. destruct H as [Hxy Hi].
  apply Nat.ltb_lt in Hxy. constructor; [exact Hxy |].
  eapply Forall_impl; [| exact (IH y Hi)]. intros z Hz. cbv beta in *. lia.
Qed.

Lemma increasing_tail (x : nat) (l : list nat) :
  increasing (x :: l) = true -> increasing l = true.
Proof.
  destruct l as [| y l]; [reflexivity |]. cbn [increasing].
  rewrite andb_true_iff. tauto.
Qed.

Lemma increasing_NoDup (l : list nat) : increasing l = true -> NoDup l.
Proof.
  induction l as [| x l IH]; intros H; constructor.
  - intros Hin. pose proof (increasing_above x l H) as Hall.
    rewrite Forall_forall in Hall. specialize (Hall x Hin). lia.
  - apply IH, (increasing_tail x l H).
Qed.

Lemma sliceLoop_ids (d : SplitDirection) (img : HTMLImageElement)
      (B : list number) (count i : nat) :
  increasing (map id (sliceLoop d img B i count)) = true
  /\ Forall (fun k => (i <= k < i + count)%nat) (map id (sliceLoop d img B i count)).
Proof.
  revert i. induction count as [| count IH]; intros i; cbn [sliceLoop].
  - split; [reflexivity | constructor].
  - destruct (IH (S i)) as [Hinc Hall].
    assert (Hall' : Forall (fun k => (i <= k < i + S count)%nat)
                           (map id (sliceLoop d img B (S i) count))).
    { eapply Forall_impl; [| exact Hall]. intros k Hk. cbv beta in *. lia. }
    destruct (sliceAt d img B i) as [r |] eqn:E.
    + destruct (sliceAt_Some d img B i r E) as (Hid & _).
      cbn [map]. rewrite Hid. split.
      * apply increasing_cons; [exact Hinc |].
        eapply Forall_impl; [| exact Hall]. intros k Hk. cbv beta in *. lia.
      * constructor; [lia | exact Hall'].
    + split; [exact Hinc | exact Hall'].
Qed.

(** X11.  Whatever the cuts hold and whatever the image, the ids of the results
    handed out go strictly up and stay below the number of segments
    ([cuts.length + 1]); in particular no two results share an id, which is
    what the gallery uses as the key of a card. *)
Theorem newResults_ids_increasing
  (d : SplitDirection) (cs : list number) (img : HTMLImageElement) :
  increasing (map id (newResults d cs img)) = true
  /\ NoDup (map id (newResults d cs img))
  /\ Forall (fun k => (k < List.length cs + 1)%nat) (map id (newResults d cs img)).
Proof.
  unfold newResults.
  destruct (sliceLoop_ids d img (sortedCuts cs)
              (List.length (sortedCuts cs) - 1) 0) as [Hinc Hall].
  split; [exact Hinc |]. split; [apply increasing_NoDup, Hinc |].
  pose proof (sortedCuts_length cs) as HL.
  eapply Forall_impl; [| exact Hall]. intros k Hk. cbv beta in *. lia.
Qed.

Lemma newResults_valid (d : SplitDirection) (cs : list number) (img : HTMLImageElement) :
  gapInvariant cs = true ->
  (0 < naturalWidth img)%N -> (0 < naturalHeight img)%N ->
  map id (newResults d cs img) = [0; 1; 2; 3]%nat.
Proof.
  intros Hinv HW HH.
  destruct (gapInvariant_inv cs Hinv) as (c0 & c1 & c2 & -> & G0 & G1 & G2 & G3).
  assert (H0 : 0 <= c0) by qc_lra. assert (H1 : c0 <= c1) by qc_lra.
  assert (H2 : c1 <= c2) by qc_lra. assert (H3 : c2 <= 1) by qc_lra.
  assert (S0 : 0 < c0) by qc_lra. assert (S1 : c0 < c1) by qc_lra.
  assert (S2 : c1 < c2) by qc_lra. assert (S3 : c2 < 1) by qc_lra.
  unfold newResults. rewrite (sortedCuts_ordered c0 c1 c2 H0 H1 H2 H3).
  cbn [List.length Nat.sub sliceLoop].
  set (B := [Fin 0; Fin c0; Fin c1; Fin c2; Fin 1]).
  destruct (sliceAt_positive d img B 0 0 c0 eq_refl eq_refl S0 HW HH) as (r0 & -> & I0 & _).
  destruct (sliceAt_positive d img B 1 c0 c1 eq_refl eq_refl S1 HW HH) as (r1 & -> & I1 & _).
  destruct (sliceAt_positive d img B 2 c1 c2 eq_refl eq_refl S2 HW HH) as (r2 & -> & I2 & _).
  destruct (sliceAt_positive d img B 3 c2 1 eq_refl eq_refl S3 HW HH) as (r3 & -> & I3 & _).
  cbn [map]. rewrite I0, I1, I2, I3. reflexivity.
Qed.

(** X12.  On a CutSet that satisfies the gap invariant and an image with
    [W, H > 0] no segment is skipped: the loop hands out exactly four
    results, with the ids 0, 1, 2, 3 in this order. *)
Theorem valid_cuts_give_four_slices
  (d : SplitDirection) (cs : list number) (img : HTMLImageElement) :
  gapInvariant cs = true ->
  (0 < naturalWidth img)%N -> (0 < naturalHeight img)%N ->
  map id (newResults d cs img) = [0; 1; 2; 3]%nat
  /\ List.length (newResults d cs img) = 4%nat.
Proof.
  intros Hinv HW HH. pose proof (newResults_valid d cs img Hinv HW HH) as H.
  split; [exact H |]. rewrite <- (length_map id), H. reflexivity.
Qed.

Lemma valid_cuts_give_four_slices_witness :
  map id (newResults HORIZONTAL (setCut 0 (of_Q 0.4) initialCuts) image400x200)
  = [0; 1; 2; 3]%nat.
Proof.
  apply (valid_cuts_give_four_slices HORIZONTAL
           (setCut 0 (of_Q 0.4) initialCuts) image400x200); reflexivity.
Defined.

(** X13.  A click on an axis button, on a page with a complete image
    with [W, H > 0] and a 2d context, ends (handler and pass) with that
    axis, the default CutSet, the processing flag down and exactly four
    results exposed, with the ids 0, 1, 2, 3: whatever was in the gallery
    before is replaced by the slices of the new axis. *)
Theorem axis_click_shows_four_slices
  (env : Env) (st : State) (d : SplitDirection) (img : HTMLImageElement) :
  imageRef env = Some img -> context2d env = true -> complete img = true ->
  (0 < naturalWidth img)%N -> (0 < naturalHeight img)%N ->
  direction (dispatch env (ClickDirection d) st) = d
  /\ cuts (dispatch env (ClickDirection d) st) = initialCuts
  /\ results (dispatch env (ClickDirection d) st) = newResults d initialCuts img
  /\ map id (results (dispatch env (ClickDirection d) st)) = [0; 1; 2; 3]%nat
  /\ isProcessing (dispatch env (ClickDirection d) st) = false.
Proof.
  intros Himg Hctx Hc HW HH. unfold dispatch. cbn [slicesStale handle].
  destruct (generateSlices_completed env (handleDirectionChange d st) img Himg Hctx Hc)
    as (Hp & Hr & Hcuts & Hd & _).
  destruct (generateSlices_frame env (handleDirectionChange d st))
    as (_ & _ & _ & _ & _ & Hflag & _).
  rewrite Hr, Hcuts, Hd. cbn [handleDirectionChange direction cuts setCuts
    setDirection onResultsGenerated].
  repeat split.
  - apply (newResults_valid d initialCuts img eq_refl HW HH).
  - apply Hflag. left. exact Hp.
Qed.

Lemma axis_click_shows_four_slices_witness :
  map drawn (results (dispatch readyEnv (ClickDirection HORIZONTAL) coincidingStateSliced))
  = [pixels 0 0 400 50; pixels 0 50 400 50; pixels 0 100 400 50; pixels 0 150 400 50].
Proof.
  destruct (axis_click_shows_four_slices readyEnv coincidingStateSliced HORIZONTAL
              image400x200 eq_refl eq_refl eq_refl eq_refl eq_refl)
    as (_ & _ & Hr & _).
  rewrite Hr. apply (all2_eq rect_eqb rect_eqb_eq). vm_compute. reflexivity.
Defined.

(* ================================================================== *)
(** ** The rendered editor *)
(* ================================================================== *)

Lemma map_lineIndex_mapi (st : State) (l : list number) (k : nat) :
  map lineIndex
      (mapi (fun cut index =>
               mkLine index (mul cut (of_Z 100))
                      (match activeDragIndex st with
                       | Some active => active =? index
                       | None => false
                       end)%nat) k l)
  = seq k (List.length l).
Proof.
  revert k. induction l as [| x l IH]; intros k; cbn [mapi map seq List.length];
    [reflexivity |].
  rewrite IH. reflexivity.
Qed.

(** X14.  The lines carry the indices 0, 1, ... of the cuts, in order.  A press
    on the i-th line starts the drag of cut [i]; past the last line there
    is nothing to press and nothing happens.  So the drag session only ever
    names a cut that exists. *)
Theorem pressLine_reaches_only_cuts (env : Env) (i : nat) (st : State) :
  map lineIndex (lines st) = seq 0 (List.length (cuts st))
  /\ ((i < List.length (cuts st))%nat ->
      handle env (PressLine i) st = handleDragStart i st)
  /\ ((List.length (cuts st) <= i)%nat -> handle env (PressLine i) st = st).
Proof.
  split; [apply map_lineIndex_mapi |].
  cbn [handle]. split; intros Hi.
  - destruct (nth_error (lines st) i) as [line |] eqn:E.
    + destruct (lines_nth st i line E) as [-> _]. reflexivity.
    + apply nth_error_None in E. unfold lines in E. rewrite mapi_length in E. lia.
  - destruct (nth_error (lines st) i) as [line |] eqn:E; [| reflexivity].
    destruct (lines_nth st i line E) as [_ Hlt]. lia.
Qed.

Lemma pressLine_reaches_only_cuts_witness :
  handle readyEnv (PressLine 2) initialState = handleDragStart 2 initialState
  /\ handle readyEnv (PressLine 3) initialState = initialState.
Proof.
  split.
  - apply (pressLine_reaches_only_cuts readyEnv 2 initialState). simpl. lia.
  - apply (pressLine_reaches_only_cuts readyEnv 3 initialState). simpl. lia.
Defined.

Lemma dispatch_pointer_idle (env : Env) (ev : Event) (st : State) :
  activeDragIndex st = None -> pointerOnly (env, ev) = true ->
  dispatch env ev st = st.
Proof.
  intros Ha Hp. unfold dispatch.
  destruct ev; try discriminate;
    unfold handle, slicesStale, listening; rewrite Ha; reflexivity.
Qed.

(** X15.  With no drag session, pointer moves and releases do nothing at all:
    no state changes and no pass runs, whatever the page looks like. *)
Theorem idle_pointer_changes_nothing (trace : list (Env * Event)) (st : State) :
  activeDragIndex st = None -> forallb pointerOnly trace = true ->
  run trace st = st.
Proof.
  intros Ha. induction trace as [| [env ev] trace IH]; intros Hall; [reflexivity |].
  cbn [forallb] in Hall. apply andb_true_iff in Hall. destruct Hall as [H1 H2].
  cbn [run]. rewrite (dispatch_pointer_idle env ev st Ha H1). apply IH, H2.
Qed.

Lemma idle_pointer_changes_nothing_witness :
  run [(collapsedEnv, PointerMove (of_Z 10) (of_Z 20)); (readyEnv, PointerUp)]
      slicedState = slicedState.
Proof.
  apply (idle_pointer_changes_nothing
           [(collapsedEnv, PointerMove (of_Z 10) (of_Z 20)); (readyEnv, PointerUp)]
           slicedState); reflexivity.
Defined.

Lemma half_between (a b : Qc) :
  a < b -> exists m, div (add (Fin a) (Fin b)) (of_Z 2) = Fin m /\ a < m /\ m < b.
Proof.
  intros Hab. unfold of_Z, of_Q. cbn [add].
  assert (H2 : 0 < Q2Qc (inject_Z 2)) by reflexivity.
  rewrite (div_positive (a + b) (Q2Qc (inject_Z 2)) H2).
  exists ((a + b) / Q2Qc (inject_Z 2)). split; [reflexivity |].
  clear H2. unfold Qcdiv, Qcinv. qc_unfold.
  change (/ inject_Z 2)%Q with (1 # 2)%Q.
  split; lra.
Qed.

(** X16.  On a valid CutSet the four slice numbers 1, 2, 3, 4 sit strictly
    between the boundaries of their slices: number 1 between 0 and the
    first line, number 2 between the first and the second line, and so on
    up to number 4 between the third line and 1. *)
Theorem labels_between_lines (cs : list number) :
  gapInvariant cs = true ->
  exists c0 c1 c2 m0 m1 m2 m3 : Qc,
    cs = [Fin c0; Fin c1; Fin c2]
    /\ map labelText (labels cs) = [1; 2; 3; 4]%nat
    /\ map labelCenter (labels cs) = [Fin m0; Fin m1; Fin m2; Fin m3]
    /\ 0 < m0 /\ m0 < c0 /\ c0 < m1 /\ m1 < c1
    /\ c1 < m2 /\ m2 < c2 /\ c2 < m3 /\ m3 < 1.
Proof.
  intros Hinv.
  destruct (gapInvariant_inv cs Hinv) as (c0 & c1 & c2 & -> & G0 & G1 & G2 & G3).
  assert (S0 : 0 < c0) by qc_lra. assert (S1 : c0 < c1) by qc_lra.
  assert (S2 : c1 < c2) by qc_lra. assert (S3 : c2 < 1) by qc_lra.
  destruct (half_between 0 c0 S0) as (m0 & E0 & A0 & B0).
  destruct (half_between c0 c1 S1) as (m1 & E1 & A1 & B1).
  destruct (half_between c1 c2 S2) as (m2 & E2 & A2 & B2).
  destruct (half_between c2 1 S3) as (m3 & E3 & A3 & B3).
  exists c0, c1, c2, m0, m1, m2, m3.
  split; [reflexivity |]. split; [reflexivity |].
  split; [| auto 12].
  unfold labels. cbn [mapi map labelAt labelCenter List.length Nat.ltb Nat.leb get nth].
  rewrite E0, E1, E2, E3. reflexivity.
Qed.

Lemma labels_between_lines_witness :
  map labelText (labels initialCuts) = [1; 2; 3; 4]%nat.
Proof.
  destruct (labels_between_lines initialCuts eq_refl)
    as (c0 & c1 & c2 & m0 & m1 & m2 & m3 & _ & H & _).
  exact H.
Defined.

(* ================================================================== *)
(** ** The gallery *)
(* ================================================================== *)

Lemma string_length_append (s t : string) :
  String.length (s ++ t) = (String.length s + String.length t)%nat.
Proof.
  induction s as [| c s IH]; cbn [append String.length Nat.add];
    [reflexivity | rewrite IH; reflexivity].
Qed.

Lemma append_inj_l (s x y : string) : (s ++ x = s ++ y)%string -> x = y.
Proof.
  induction s as [| c s IH]; cbn [append]; [auto |].
  intros H. injection H as H. auto.
Qed.

Lemma append_inj_r (x y s : string) : (x ++ s = y ++ s)%string -> x = y.
Proof.
  revert y. induction x as [| c x IH]; intros [| c' y] H; cbn [append] in H.
  - reflexivity.
  - apply (f_equal String.length) in H. cbn [String.length] in H.
    rewrite string_length_append in H. lia.
  - apply (f_equal String.length) in H. cbn [String.length] in H.
    rewrite string_length_append in H. lia.
  - injection H as -> H. f_equal. apply IH, H.
Qed.

Lemma decimal_inj (n m : nat) : decimal n = decimal m -> n = m.
Proof.
  unfold decimal. intros H.
  apply (f_equal DecimalString.NilEmpty.uint_of_string) in H.
  rewrite !DecimalString.NilEmpty.usu in H. injection H as H.
  apply DecimalNat.Unsigned.to_uint_inj, H.
Qed.

Lemma downloadName_inj (i j : nat) : downloadName i = downloadName j -> i = j.
Proof.
  unfold downloadName. intros H.
  apply append_inj_l, append_inj_r, decimal_inj in H. lia.
Qed.

Lemma mapi_card (rs : list SplitResult) (k : nat) :
  map key (mapi card k rs) = map id rs
  /\ map src (mapi card k rs) = map dataUrl rs
  /\ map href (mapi card k rs) = map dataUrl rs
  /\ map badge (mapi card k rs) = seq (k + 1) (List.length rs)
  /\ map download (mapi card k rs) = map downloadName (seq k (List.length rs)).
Proof.
  revert k. induction rs as [| r rs IH]; intros k.
  - repeat split.
  - destruct (IH (S k)) as (H1 & H2 & H3 & H4 & H5).
    cbn [mapi map List.length seq]. rewrite H1, H2, H3, H4, H5.
    replace (S k + 1)%nat with (S (k + 1)) by lia.
    repeat split.
Qed.

Lemma NoDup_map_downloadName (l : list nat) :
  NoDup l -> NoDup (map downloadName l).
Proof.
  induction 1 as [| x l Hx Hl IH]; cbn [map]; constructor; [| exact IH].
  intros Hin. apply in_map_iff in Hin. destruct Hin as (y & E & Hy).
  apply downloadName_inj in E. subst y. contradiction.
Qed.

(** X18.  The gallery renders nothing exactly when there is no result.
    Otherwise there is one card per result, in order; the card shows and
    links the picture of its result and is keyed by the id of its result;
    the cards are numbered 1, 2, ... by position (not by id), and no two of
    them are downloaded under the same file name. *)
Theorem ResultGallery_cards (rs : list SplitResult) :
  (ResultGallery rs = None <-> rs = [])
  /\ (forall cards, ResultGallery rs = Some cards ->
        List.length cards = List.length rs
        /\ map key cards = map id rs
        /\ map src cards = map dataUrl rs
        /\ map href cards = map dataUrl rs
        /\ map badge cards = seq 1 (List.length rs)
        /\ map download cards = map downloadName (seq 0 (List.length rs))
        /\ NoDup (map download cards)).
Proof.
  unfold ResultGallery. split.
  - destruct rs as [| r rs]; cbn [List.length Nat.eqb]; split;
      auto; discriminate.
  - intros cards H.
    destruct (List.length rs =? 0)%nat; [discriminate |]. injection H as <-.
    destruct (mapi_card rs 0) as (H1 & H2 & H3 & H4 & H5).
    rewrite mapi_length, H1, H2, H3, H4, H5.
    repeat split. apply NoDup_map_downloadName, seq_NoDup.
Qed.

Lemma ResultGallery_cards_witness :
  exists cards, ResultGallery (results coincidingStateSliced) = Some cards
                /\ map key cards = [0; 2; 3]%nat
                /\ map badge cards = [1; 2; 3]%nat
                /\ NoDup (map download cards).
Proof.
  destruct (ResultGallery (results coincidingStateSliced)) as [cards |] eqn:E;
    [| discriminate E].
  destruct (ResultGallery_cards (results coincidingStateSliced)) as [_ H].
  destruct (H cards E) as (_ & Hk & _ & _ & Hb & _ & Hn).
  exists cards. repeat split; assumption.
Defined.

Lemma generateSlices_touches_only_results_and_flag_witness :
  results (snd (generateSlices noContextEnv slicedState)) = results slicedState
  /\ isProcessing (snd (generateSlices noContextEnv slicedState)) = false.
Proof.
  destruct (generateSlices_touches_only_results_and_flag noContextEnv slicedState)
    as (_ & _ & _ & _ & Hr & Hf & _).
  split; [apply Hr; discriminate | apply Hf; right; reflexivity].
Defined.

Lemma lines_active (st : State) (i : nat) (line : Line) :
  nth_error (lines st) i = Some line ->
  (lineActive line = true <-> activeDragIndex st = Some i).
Proof.
  unfold lines. rewrite mapi_nth_error.
  destruct (nth_error (cuts st) i) as [cut |]; [| discriminate].
  cbn [option_map Nat.add]. intros H. injection H as <-. cbn [lineActive].
  destruct (activeDragIndex st) as [a |].
  - rewrite Nat.eqb_eq. split; congruence.
  - split; discriminate.
Qed.

(** X17.  The editor draws one line per cut, and a line is drawn
    highlighted exactly when it is the one being dragged: at most one line
    is highlighted, and none when no drag is going on. *)
Theorem lines_highlight_dragged (st : State) :
  List.length (lines st) = List.length (cuts st)
  /\ (forall i line, nth_error (lines st) i = Some line ->
        (lineActive line = true <-> activeDragIndex st = Some i))
  /\ (activeDragIndex st = None ->
      forall line, In line (lines st) -> lineActive line = false).
Proof.
  split; [unfold lines; apply mapi_length |].
  split; [apply lines_active |].
  intros Hnone line Hin. apply In_nth_error in Hin. destruct Hin as [i Hi].
  destruct (lineActive line) eqn:E; [| reflexivity].
  apply (lines_active st i line Hi) in E. congruence.
Qed.

Lemma lines_highlight_dragged_witness :
  map lineActive (lines (handleDragStart 1 initialState)) = [false; true; false]
  /\ map lineActive (lines initialState) = [false; false; false].
Proof.
  destruct (lines_highlight_dragged initialState) as (_ & _ & H).
  split; [reflexivity |].
  assert (H' := H eq_refl). reflexivity.
Defined.
